(** * LayerUI: a UI layer with asynchronously loaded, cacheable views

    Shallow embedding of [assets/core/gui/layer/LayerUI.ts].

    The class keeps two JavaScript [Map]s ([ui_nodes], [ui_cache]) whose
    values are shared, mutable [ViewParams] objects; the same object is
    also referenced by the [DelegateComponent] of the instantiated node
    and by the closure handed to [oops.res.load].  The embedding therefore
    has an explicit store of records and of nodes, addressed by
    references, and every method is a computation in a state monad whose
    second outcome is a JavaScript [TypeError] (property access on an
    absent value).  The state reached when an exception is thrown is kept,
    because the mutations made before the throw persist in the program. *)

From Stdlib Require Import String Ascii List Bool Arith Lia.
Import ListNotations.

Local Open Scope string_scope.
Local Open Scope list_scope.

(** ** JavaScript [Map] with string keys

    A [Map] iterates in insertion order and [forEach] is used by [clear],
    so the map is an association list in insertion order: [set] on a
    present key replaces the value in place, on a new key it appends. *)
Module JsMap.

Definition t (V : Type) := list (string * V).

Definition empty {V} : t V := [].

Fixpoint get {V} (k : string) (m : t V) : option V :=
  match m with
  | [] => None
  | (k', v) :: m' => if String.eqb k' k then Some v else get k m'
  end.

Definition has {V} (k : string) (m : t V) : bool :=
  match get k m with Some _ => true | None => false end.

Fixpoint set {V} (k : string) (v : V) (m : t V) : t V :=
  match m with
  | [] => [(k, v)]
  | (k', v') :: m' =>
      if String.eqb k' k then (k', v) :: m' else (k', v') :: set k v m'
  end.

Fixpoint delete {V} (k : string) (m : t V) : t V :=
  match m with
  | [] => []
  | (k', v') :: m' =>
      if String.eqb k' k then m' else (k', v') :: delete k m'
  end.

Definition keys {V} (m : t V) : list string := map fst m.

(** Number of entries stored under key [k]. *)
Definition count {V} (k : string) (m : t V) : nat :=
  length (filter (fun e => String.eqb (fst e) k) m).

End JsMap.

(** ** Strings: the identifier of a view *)

(** [s.replace(/c/g, rep)] for a one-character pattern. *)
Fixpoint replace_all (pat : ascii) (rep : string) (s : string) : string :=
  match s with
  | EmptyString => EmptyString
  | String c rest =>
      if Ascii.eqb c pat then (rep ++ replace_all pat rep rest)%string
      else String c (replace_all pat rep rest)
  end.

(** [getUuid]: the template literal [`${this.name}_${prefabPath}`] followed
    by [replace(/\//g, "_")]. *)
Definition getUuid (name prefabPath : string) : string :=
  let uuid := (name ++ "_" ++ prefabPath)%string in
  replace_all "/"%char "_" uuid.

(** ** Objects *)

Definition Ref := nat.      (* reference to a ViewParams object *)
Definition NodeId := nat.   (* reference to a cc.Node created by instantiate *)

(** [params] and [callbacks] are opaque to the layer. *)
Inductive Payload := EmptyObject | Opaque (tag : nat).

Record ViewParams := mkViewParams {
  uuid : string;
  prefabPath : string;
  node : option NodeId;
  params : Payload;
  callbacks : Payload;
  valid : bool
}.

(** A node made by [instantiate]: its [DelegateComponent] (with the record
    it points back to), and whether the engine still regards it as valid. *)
Record NodeObj := mkNodeObj {
  delegate : option Ref;
  alive : bool
}.

Record UIConfig := mkUIConfig {
  prefab : string;
  bundle : option string
}.

(** An [oops.res.load] call whose callback has not run yet; the closure
    captured the record [viewParams]. *)
Record Request := mkRequest {
  req_viewParams : Ref;
  req_bundle : string;
  req_path : string
}.

(** What the collaborators were told: logger, asset provider, delegates. *)
Inductive Event :=
| Warn (path : string)
| Error (e : string)
| LoadRequested (bundle path : string)
| OnAdded (n : NodeId)
| OnRemove (n : NodeId) (isDestroy : bool).

Record Layer := mkLayer {
  name : string;
  defaultBundleName : string;      (* oops.res.defaultBundleName *)
  recs : list ViewParams;          (* store of ViewParams objects *)
  nodes : list NodeObj;            (* store of instantiated nodes *)
  ui_nodes : JsMap.t Ref;
  ui_cache : JsMap.t Ref;
  children : list NodeId;          (* this.children, in order *)
  pending : list Request;          (* loads in flight *)
  log : list Event
}.

(** [new LayerUI(name)]. *)
Definition new_LayerUI (name defaultBundle : string) : Layer :=
  mkLayer name defaultBundle [] [] JsMap.empty JsMap.empty [] [] [].

Definition nullViewParams : ViewParams :=
  mkViewParams "" "" None EmptyObject EmptyObject false.
Definition nullNode : NodeObj := mkNodeObj None false.

Definition rd (w : Layer) (r : Ref) : ViewParams := nth r (recs w) nullViewParams.
Definition nd (w : Layer) (n : NodeId) : NodeObj := nth n (nodes w) nullNode.

Fixpoint upd {A} (i : nat) (f : A -> A) (l : list A) : list A :=
  match l, i with
  | [], _ => []
  | x :: l', 0 => f x :: l'
  | x :: l', S i' => x :: upd i' f l'
  end.

Definition with_recs (f : list ViewParams -> list ViewParams) (w : Layer) : Layer :=
  mkLayer (name w) (defaultBundleName w) (f (recs w)) (nodes w) (ui_nodes w)
          (ui_cache w) (children w) (pending w) (log w).
Definition with_nodes (f : list NodeObj -> list NodeObj) (w : Layer) : Layer :=
  mkLayer (name w) (defaultBundleName w) (recs w) (f (nodes w)) (ui_nodes w)
          (ui_cache w) (children w) (pending w) (log w).
Definition with_ui_nodes (f : JsMap.t Ref -> JsMap.t Ref) (w : Layer) : Layer :=
  mkLayer (name w) (defaultBundleName w) (recs w) (nodes w) (f (ui_nodes w))
          (ui_cache w) (children w) (pending w) (log w).
Definition with_ui_cache (f : JsMap.t Ref -> JsMap.t Ref) (w : Layer) : Layer :=
  mkLayer (name w) (defaultBundleName w) (recs w) (nodes w) (ui_nodes w)
          (f (ui_cache w)) (children w) (pending w) (log w).
Definition with_children (f : list NodeId -> list NodeId) (w : Layer) : Layer :=
  mkLayer (name w) (defaultBundleName w) (recs w) (nodes w) (ui_nodes w)
          (ui_cache w) (f (children w)) (pending w) (log w).
Definition with_pending (f : list Request -> list Request) (w : Layer) : Layer :=
  mkLayer (name w) (defaultBundleName w) (recs w) (nodes w) (ui_nodes w)
          (ui_cache w) (children w) (f (pending w)) (log w).
Definition with_log (f : list Event -> list Event) (w : Layer) : Layer :=
  mkLayer (name w) (defaultBundleName w) (recs w) (nodes w) (ui_nodes w)
          (ui_cache w) (children w) (pending w) (f (log w)).

(** Field assignments on a record object. *)
Definition set_node (v : option NodeId) (p : ViewParams) : ViewParams :=
  mkViewParams (uuid p) (prefabPath p) v (params p) (callbacks p) (valid p).
Definition set_params (v : Payload) (p : ViewParams) : ViewParams :=
  mkViewParams (uuid p) (prefabPath p) (node p) v (callbacks p) (valid p).
Definition set_callbacks (v : Payload) (p : ViewParams) : ViewParams :=
  mkViewParams (uuid p) (prefabPath p) (node p) (params p) v (valid p).
Definition set_valid (v : bool) (p : ViewParams) : ViewParams :=
  mkViewParams (uuid p) (prefabPath p) (node p) (params p) (callbacks p) v.

Definition set_delegate (v : option Ref) (n : NodeObj) : NodeObj :=
  mkNodeObj v (alive n).
Definition set_alive (v : bool) (n : NodeObj) : NodeObj :=
  mkNodeObj (delegate n) v.

(** ** The monad: state, plus a thrown [TypeError] *)

Inductive Exn := TypeError.

Inductive Outcome (A : Type) :=
| Done (a : A) (w : Layer)
| Throw (e : Exn) (w : Layer).
Arguments Done {A} a w.
Arguments Throw {A} e w.

Definition M (A : Type) := Layer -> Outcome A.

Definition ret {A} (a : A) : M A := fun w => Done a w.
Definition bind {A B} (m : M A) (k : A -> M B) : M B :=
  fun w => match m w with
           | Done a w' => k a w'
           | Throw e w' => Throw e w'
           end.
Definition throw {A} (e : Exn) : M A := fun w => Throw e w.
Definition gets {A} (f : Layer -> A) : M A := fun w => Done (f w) w.
Definition modify (f : Layer -> Layer) : M unit := fun w => Done tt (f w).

Notation "x <- m ;; k" := (bind m (fun x => k))
  (at level 61, m at next level, right associativity).
Notation "m ;; k" := (bind m (fun _ => k))
  (at level 61, right associativity).

(** The state an outcome ends in, whether it returned or threw. *)
Definition final {A} (o : Outcome A) : Layer :=
  match o with Done _ w => w | Throw _ w => w end.

Definition emit (e : Event) : M unit := modify (with_log (fun l => l ++ [e])).
Definition assign (r : Ref) (f : ViewParams -> ViewParams) : M unit :=
  modify (with_recs (upd r f)).

(** ** DelegateComponent *)

(** Modelled from the spec: [DelegateComponent.add] (DelegateComponent.ts is
    not among the sources).  The binding is notified of the insertion; what
    it does with the notification is outside the layer. *)
Definition Delegate_add (n : NodeId) : M unit := emit (OnAdded n).

Fixpoint remove_id (n : NodeId) (l : list NodeId) : list NodeId :=
  match l with
  | [] => []
  | x :: l' => if Nat.eqb x n then remove_id n l' else x :: remove_id n l'
  end.

(** Modelled from the spec: [DelegateComponent.remove(isDestroy)]
    (DelegateComponent.ts is not among the sources).  The binding is
    notified and detaches its visual from the layer; with [isDestroy] the
    visual is destroyed as well ("detach-and-destroy" against
    "detach-only"). *)
Definition Delegate_remove (n : NodeId) (isDestroy : bool) : M unit :=
  emit (OnRemove n isDestroy) ;;
  modify (with_children (remove_id n)) ;;
  if isDestroy then modify (with_nodes (upd n (set_alive false))) else ret tt.

(** [node.getComponent(DelegateComponent)!] followed by a method call on the
    result: a [TypeError] when the node carries no such component. *)
Definition getComponent (n : NodeId) : M NodeId :=
  d <- gets (fun w => delegate (nd w n)) ;;
  match d with
  | Some _ => ret n
  | None => throw TypeError
  end.

(** ** LayerUI *)

(** [viewParams.node.parent = this]: a node that is already a child stays
    where it is, otherwise it becomes the last child. *)
Definition set_parent (n : NodeId) (w : Layer) : Layer :=
  if existsb (Nat.eqb n) (children w) then w
  else with_children (fun l => l ++ [n]) w.

Definition createNode (viewParams : Ref) : M NodeId :=
  assign viewParams (set_valid true) ;;
  vnode <- gets (fun w => node (rd w viewParams)) ;;
  match vnode with
  | None => throw TypeError
  | Some n =>
      comp <- getComponent n ;;
      Delegate_add comp ;;
      modify (set_parent n) ;;
      ret n
  end.

(** [bundle || oops.res.defaultBundleName]: an absent or empty name is
    falsy. *)
Definition bundle_or (bundle : option string) (default : string) : string :=
  match bundle with
  | Some b => if String.eqb b "" then default else b
  | None => default
  end.

Definition load (viewParams : Ref) (bundle : option string) : M unit :=
  vp <- gets (fun w => JsMap.get (uuid (rd w viewParams)) (ui_nodes w)) ;;
  hasNode <- gets (fun w => match vp with
                            | Some r => match node (rd w r) with
                                        | Some _ => true
                                        | None => false
                                        end
                            | None => false
                            end) ;;
  match vp, hasNode with
  | Some r, true => createNode r ;; ret tt
  | _, _ =>
      b <- gets (fun w => bundle_or bundle (defaultBundleName w)) ;;
      path <- gets (fun w => prefabPath (rd w viewParams)) ;;
      emit (LoadRequested b path) ;;
      modify (with_pending (fun q => q ++ [mkRequest viewParams b path]))
  end.

(** What [instantiate(res)] does inside the callback: it is engine code, so
    its three possible behaviours are an input of the completion. *)
Inductive Instantiated := InstNode | InstNull | InstThrows.

(** The callback passed to [oops.res.load]. *)
Definition loadCallback (req : Request) (err : option string)
                        (inst : Instantiated) : M unit :=
  let viewParams := req_viewParams req in
  match err with Some e => emit (Error e) | None => ret tt end ;;
  match inst with
  | InstThrows => throw TypeError
  | InstNull =>
      assign viewParams (set_node None) ;;
      throw TypeError   (* childNode.addComponent on null *)
  | InstNode =>
      childNode <- gets (fun w => length (nodes w)) ;;
      modify (with_nodes (fun l => l ++ [mkNodeObj None true])) ;;
      assign viewParams (set_node (Some childNode)) ;;
      modify (with_nodes (upd childNode (set_delegate (Some viewParams)))) ;;
      createNode viewParams ;;
      ret tt
  end.

(** The asset provider completes the [k]-th outstanding load. *)
Definition remove_nth {A} (k : nat) (l : list A) : list A :=
  firstn k l ++ skipn (S k) l.

Definition resolve (k : nat) (err : option string) (inst : Instantiated) : M unit :=
  req <- gets (fun w => nth_error (pending w) k) ;;
  match req with
  | None => ret tt
  | Some rq =>
      modify (with_pending (remove_nth k)) ;;
      loadCallback rq err inst
  end.

(** [a ?? {}]. *)
Definition or_empty (a : option Payload) : Payload :=
  match a with Some p => p | None => EmptyObject end.

Definition add (config : UIConfig) (params callbacks : option Payload) : M string :=
  let prefabPath := prefab config in
  uuid <- gets (fun w => getUuid (name w) prefabPath) ;;
  viewParams <- gets (fun w => JsMap.get uuid (ui_nodes w)) ;;
  isValid <- gets (fun w => match viewParams with
                            | Some r => valid (rd w r)
                            | None => false
                            end) ;;
  if isValid then
    emit (Warn prefabPath) ;;
    ret ""
  else
    r <- match viewParams with
         | Some r => ret r
         | None =>
             r <- gets (fun w => length (recs w)) ;;
             modify (with_recs (fun l =>
               l ++ [mkViewParams uuid prefabPath None EmptyObject EmptyObject true])) ;;
             modify (with_ui_nodes (JsMap.set uuid r)) ;;
             ret r
         end ;;
    assign r (set_params (or_empty params)) ;;
    assign r (set_callbacks (or_empty callbacks)) ;;
    assign r (set_valid true) ;;
    load r (bundle config) ;;
    ret uuid.

(** [__nodes]: the delegates of the children that are bound to a valid
    record and still alive. *)
Definition shown (w : Layer) (c : NodeId) : bool :=
  match delegate (nd w c) with
  | Some r => valid (rd w r) && alive (nd w c)
  | None => false
  end.

Definition __nodes (w : Layer) : list NodeId := filter (shown w) (children w).

(** [comp.viewParams] of a delegate returned by [__nodes]. *)
Definition viewParamsOf (c : NodeId) : M Ref :=
  d <- gets (fun w => delegate (nd w c)) ;;
  match d with
  | Some r => ret r
  | None => throw TypeError
  end.

Definition removeCache (prefabPath : string) : M unit :=
  viewParams <- gets (fun w => JsMap.get prefabPath (ui_cache w)) ;;
  match viewParams with
  | None => ret tt
  | Some r =>
      childNode <- gets (fun w => node (rd w r)) ;;
      match childNode with
      | None => throw TypeError
      | Some n =>
          comp <- getComponent n ;;
          Delegate_remove comp true ;;
          u <- gets (fun w => uuid (rd w r)) ;;
          modify (with_ui_nodes (JsMap.delete u)) ;;
          modify (with_ui_cache (JsMap.delete prefabPath))
      end
  end.

Fixpoint remove_loop (children : list NodeId) (path : string)
                     (isDestroy : bool) : M unit :=
  match children with
  | [] => ret tt
  | c :: rest =>
      viewParams <- viewParamsOf c ;;
      p <- gets (fun w => prefabPath (rd w viewParams)) ;;
      (if String.eqb p path then
         (if isDestroy then
            u <- gets (fun w => uuid (rd w viewParams)) ;;
            modify (with_ui_nodes (JsMap.delete u))
          else
            modify (with_ui_cache (JsMap.set p viewParams))) ;;
         Delegate_remove c isDestroy ;;
         assign viewParams (set_valid false)
       else ret tt) ;;
      remove_loop rest path isDestroy
  end.

Definition remove (prefabPath : string) (isDestroy : bool) : M unit :=
  (if isDestroy then removeCache prefabPath else ret tt) ;;
  children <- gets __nodes ;;
  remove_loop children prefabPath isDestroy.

Definition removeByUuid (uuid' : string) (isDestroy : bool) : M unit :=
  viewParams <- gets (fun w => JsMap.get uuid' (ui_nodes w)) ;;
  match viewParams with
  | None => ret tt
  | Some r =>
      (if isDestroy then
         u <- gets (fun w => uuid (rd w r)) ;;
         modify (with_ui_nodes (JsMap.delete u))
       else ret tt) ;;
      childNode <- gets (fun w => node (rd w r)) ;;
      match childNode with
      | None => throw TypeError
      | Some n =>
          comp <- getComponent n ;;
          Delegate_remove comp isDestroy
      end
  end.

(** [getByUuid]: [None] is the [null] result. *)
Definition getByUuid (uuid' : string) (w : Layer) : option NodeId :=
  find (fun c => match delegate (nd w c) with
                 | Some r => String.eqb (uuid (rd w r)) uuid'
                 | None => false
                 end) (__nodes w).

Definition get (path : string) (w : Layer) : list NodeId :=
  filter (fun c => match delegate (nd w c) with
                   | Some r => String.eqb (prefabPath (rd w r)) path
                   | None => false
                   end) (__nodes w).

Definition has (prefabPathOrUUID : string) (w : Layer) : bool :=
  existsb (fun c => match delegate (nd w c) with
                    | Some r => String.eqb (uuid (rd w r)) prefabPathOrUUID
                                || String.eqb (prefabPath (rd w r)) prefabPathOrUUID
                    | None => false
                    end) (__nodes w).

(** [find]: the pattern is the caller's [RegExp] object.  [test] on a
    pattern with the [g] or [y] flag starts at [lastIndex] and moves it, so
    the object has a state, which one call of [find] carries from child to
    child and leaves behind.  What the engine answers for the pattern at a
    given [lastIndex] (the result and the new [lastIndex]) is an input of
    the model; a pattern without those flags ignores the index. *)
Record RegExp := mkRegExp {
  lastIndex : nat;
  exec_at : nat -> string -> bool * nat
}.

Definition RegExp_test (re : RegExp) (s : string) : bool * RegExp :=
  let (b, i) := exec_at re (lastIndex re) s in
  (b, mkRegExp i (exec_at re)).

Fixpoint find_loop (re : RegExp) (comps : list NodeId) (w : Layer)
  : list NodeId * RegExp :=
  match comps with
  | [] => ([], re)
  | comp :: rest =>
      match delegate (nd w comp) with
      | Some r =>
          let (b, re') := RegExp_test re (prefabPath (rd w r)) in
          let (arr, re'') := find_loop re' rest w in
          (if b then comp :: arr else arr, re'')
      | None => find_loop re rest w
      end
  end.

(** The nodes found, and the pattern object as the call leaves it. *)
Definition find_nodes (prefabPathReg : RegExp) (w : Layer) : list NodeId * RegExp :=
  find_loop prefabPathReg (__nodes w) w.

Definition size (w : Layer) : nat := length (children w).

(** [Map.prototype.forEach]: entries are visited in insertion order, and an
    entry deleted before its turn is skipped.  Nothing is inserted while
    [clear] iterates, so visiting the entries of the snapshot that are still
    present is exact. *)
Fixpoint forEach (entries : list (string * Ref))
                 (present : string -> Layer -> bool)
                 (body : Ref -> string -> M unit) : M unit :=
  match entries with
  | [] => ret tt
  | (key, value) :: rest =>
      live <- gets (present key) ;;
      (if live then body value key else ret tt) ;;
      forEach rest present body
  end.

Definition clear (isDestroy : bool) : M unit :=
  entries <- gets ui_nodes ;;
  forEach entries (fun k w => JsMap.has k (ui_nodes w))
    (fun value key =>
       u <- gets (fun w => uuid (rd w value)) ;;
       removeByUuid u isDestroy ;;
       assign value (set_valid false)) ;;
  modify (with_ui_nodes (fun _ => JsMap.empty)) ;;
  if isDestroy then
    cached <- gets ui_cache ;;
    forEach cached (fun k w => JsMap.has k (ui_cache w))
      (fun value prefabPath => removeCache prefabPath)
  else ret tt.

(** ** Specification vocabulary *)

(** The identifier as the specification words it: the layer name and the
    path joined by an underscore, every path separator of the result
    rewritten to an underscore. *)
Fixpoint rewrite_separators (s : string) : string :=
  match s with
  | EmptyString => EmptyString
  | String c rest =>
      String (if Ascii.eqb c "/"%char then "_"%char else c) (rewrite_separators rest)
  end.

Definition spec_identifier (layerName path : string) : string :=
  rewrite_separators (layerName ++ "_" ++ path)%string.

Fixpoint occurs (c : ascii) (s : string) : bool :=
  match s with
  | EmptyString => false
  | String c' rest => Ascii.eqb c' c || occurs c rest
  end.

(** Triples: from a state in [P], a returning run ends in [Q], a throwing
    run in [E]. *)
Definition hoare {A} (P : Layer -> Prop) (m : M A)
                 (Q : A -> Layer -> Prop) (E : Layer -> Prop) : Prop :=
  forall w, P w ->
    match m w with
    | Done a w' => Q a w'
    | Throw _ w' => E w'
    end.

(** [m] keeps [P], however it ends. *)
Definition keeps {A} (P : Layer -> Prop) (m : M A) : Prop :=
  hoare P m (fun _ => P) P.

Definition in_active (r : Ref) (w : Layer) : Prop :=
  exists k, JsMap.get k (ui_nodes w) = Some r.
Definition in_cache (r : Ref) (w : Layer) : Prop :=
  exists p, JsMap.get p (ui_cache w) = Some r.

(** A record whose load has not delivered a visual. *)
Definition awaiting (w : Layer) (r : Ref) : Prop :=
  node (rd w r) = None.

(** Well-formedness of the object graph. *)
Record inv (w : Layer) : Prop := mkInv {
  inv_active_keys : NoDup (JsMap.keys (ui_nodes w));
  inv_cache_keys : NoDup (JsMap.keys (ui_cache w));
  inv_active : forall k r, JsMap.get k (ui_nodes w) = Some r ->
      r < length (recs w) /\ uuid (rd w r) = k;
  inv_cache : forall p r, JsMap.get p (ui_cache w) = Some r ->
      r < length (recs w) /\ prefabPath (rd w r) = p /\ node (rd w r) <> None;
  inv_visual : forall r n, node (rd w r) = Some n ->
      n < length (nodes w) /\ delegate (nd w n) = Some r;
  inv_delegate : forall n r, delegate (nd w n) = Some r ->
      r < length (recs w) /\ node (rd w r) <> None;
  inv_children : forall c, In c (children w) -> c < length (nodes w);
  inv_pending : forall rq, In rq (pending w) ->
      req_viewParams rq < length (recs w)
      /\ node (rd w (req_viewParams rq)) = None
      /\ valid (rd w (req_viewParams rq)) = true;
  inv_pending_once : NoDup (map req_viewParams (pending w))
}.

(** One call of the layer's interface, or one completion of a load; the
    state a throwing call leaves behind is a state of the program too. *)
Inductive step : Layer -> Layer -> Prop :=
| step_add config p c w : step w (final (add config p c w))
| step_resolve k err inst w : step w (final (resolve k err inst w))
| step_remove path isDestroy w : step w (final (remove path isDestroy w))
| step_removeByUuid u isDestroy w : step w (final (removeByUuid u isDestroy w))
| step_clear isDestroy w : step w (final (clear isDestroy w)).

Inductive reachable : Layer -> Prop :=
| reach_new layerName defaultBundle :
    reachable (new_LayerUI layerName defaultBundle)
| reach_step w w' : reachable w -> step w w' -> reachable w'.

(** [w'] comes from [w] by detaching, destroying and invalidating only:
    the stores keep their shape, no record gains validity, no node gains
    life, no child appears. *)
Record fades (w w' : Layer) : Prop := mkFades {
  fd_name : name w' = name w;
  fd_recs : length (recs w') = length (recs w);
  fd_nodes : length (nodes w') = length (nodes w);
  fd_uuid : forall r, uuid (rd w' r) = uuid (rd w r);
  fd_path : forall r, prefabPath (rd w' r) = prefabPath (rd w r);
  fd_node : forall r, node (rd w' r) = node (rd w r);
  fd_valid : forall r, valid (rd w' r) = true -> valid (rd w r) = true;
  fd_delegate : forall n, delegate (nd w' n) = delegate (nd w n);
  fd_alive : forall n, alive (nd w' n) = true -> alive (nd w n) = true;
  fd_children : forall c, In c (children w') -> In c (children w);
  fd_pending : pending w' = pending w;
  fd_log : forall e, In e (log w) -> In e (log w')
}.

(** ** States the operations leave behind

    Each straight-line stretch of a method, as one function on states, so
    that the outcome of a call can be written down. *)

(** [instantiate], the assignment of the visual and the binding of its
    delegate, taken together. *)
Definition bind_visual (r : Ref) (w : Layer) : Layer :=
  with_nodes (upd (length (nodes w)) (set_delegate (Some r)))
    (with_recs (upd r (set_node (Some (length (nodes w)))))
       (with_nodes (fun l => l ++ [mkNodeObj None true]) w)).

(** The three assignments [add] makes to the record before loading. *)
Definition claim (r : Ref) (p c : option Payload) (w : Layer) : Layer :=
  with_recs (upd r (set_valid true))
    (with_recs (upd r (set_callbacks (or_empty c)))
       (with_recs (upd r (set_params (or_empty p))) w)).

(** [createNode] on a record whose visual is [n]. *)
Definition attached (r : Ref) (n : NodeId) (w : Layer) : Layer :=
  set_parent n
    (with_log (fun l => l ++ [OnAdded n])
       (with_recs (upd r (set_valid true)) w)).

(** The slow path of [load]. *)
Definition requested (r : Ref) (b : option string) (w : Layer) : Layer :=
  with_pending
    (fun q => q ++ [mkRequest r (bundle_or b (defaultBundleName w))
                      (prefabPath (rd w r))])
    (with_log (fun l => l ++ [LoadRequested (bundle_or b (defaultBundleName w))
                                (prefabPath (rd w r))]) w).

(** What [Delegate_remove] leaves behind. *)
Definition detached (n : NodeId) (d : bool) (w : Layer) : Layer :=
  let w1 := with_children (remove_id n) (with_log (fun l => l ++ [OnRemove n d]) w) in
  if d then with_nodes (upd n (set_alive false)) w1 else w1.

(** What one matching turn of the loop of [remove] leaves behind. *)
Definition retired (c : NodeId) (r : Ref) (d : bool) (w : Layer) : Layer :=
  with_recs (upd r (set_valid false))
    (detached c d
       (if d then with_ui_nodes (JsMap.delete (uuid (rd w r))) w
        else with_ui_cache (JsMap.set (prefabPath (rd w r)) r) w)).

(** What [removeCache] leaves behind when it evicts the record [r] with
    visual [n]. *)
Definition evicted (path : string) (r : Ref) (n : NodeId) (w : Layer) : Layer :=
  with_ui_cache (JsMap.delete path)
    (with_ui_nodes (JsMap.delete (uuid (rd w r))) (detached n true w)).

(** No entry is put into [ui_nodes] while [clear] iterates. *)
Definition within (snapshot : JsMap.t Ref) (w : Layer) : Prop :=
  forall k v, JsMap.get k (ui_nodes w) = Some v -> JsMap.get k snapshot = Some v.

(** The state after the loop of [remove] has gone through the delegates
    [l]. *)
Fixpoint swept (l : list NodeId) (path : string) (d : bool) (w : Layer) : Layer :=
  match l with
  | [] => w
  | c :: rest =>
      match delegate (nd w c) with
      | Some r =>
          if String.eqb (prefabPath (rd w r)) path
          then swept rest path d (retired c r d w)
          else swept rest path d w
      | None => swept rest path d w
      end
  end.

(** [add] of a path the active mapping does not know: a record is made,
    claimed, and its load requested. *)
Definition added (config : UIConfig) (p c : option Payload) (w : Layer) : Layer :=
  let id := getUuid (name w) (prefab config) in
  let r := length (recs w) in
  requested r (bundle config)
    (claim r p c
       (with_ui_nodes (JsMap.set id r)
          (with_recs
             (fun l => l ++ [mkViewParams id (prefab config) None
                               EmptyObject EmptyObject true]) w))).

(** ... and that load delivered: the visual is instantiated, bound and
    attached. *)
Definition displayed (config : UIConfig) (p c : option Payload) (w : Layer) : Layer :=
  let r := length (recs w) in
  attached r (length (nodes w))
    (bind_visual r
       (with_pending (remove_nth (length (pending w))) (added config p c w))).

(** ** Scenario of the specification, run on the model *)

Definition Confirm : UIConfig := mkUIConfig "ui/Confirm" None.
Definition Dialog : Layer := new_LayerUI "Dialog" "resources".

(** The two callbacks [clear] hands to [forEach], by name. *)
Definition clear_present (k : string) (w : Layer) : bool := JsMap.has k (ui_nodes w).
Definition clear_turn (isDestroy : bool) (value : Ref) (key : string) : M unit :=
  u <- gets (fun w => uuid (rd w value)) ;;
  removeByUuid u isDestroy ;;
  assign value (set_valid false).

(** The state after the first loop of [clear] has gone through
    [entries]. *)
Fixpoint cleared (entries : list (string * Ref)) (d : bool) (w : Layer) : Layer :=
  match entries with
  | [] => w
  | (key, value) :: rest =>
      match node (rd w value) with
      | Some n =>
          cleared rest d
            (with_recs (upd value (set_valid false))
               (detached n d (if d then with_ui_nodes (JsMap.delete key) w else w)))
      | None => w
      end
  end.

(** The states of the scenario, evaluated. *)
Definition Dialog_loading : Layer :=
  Eval vm_compute in final (add Confirm None None Dialog).

Definition Dialog_shown : Layer :=
  Eval vm_compute in
    final ((add Confirm None None ;; resolve 0 None InstNode) Dialog).

Definition Dialog_cached : Layer :=
  Eval vm_compute in
    final ((add Confirm None None ;; resolve 0 None InstNode ;;
            remove "ui/Confirm" false) Dialog).

Definition Dialog_dropped : Layer :=
  Eval vm_compute in
    final ((add Confirm None None ;; resolve 0 None InstNode ;;
            remove "ui/Confirm" false ;; clear false ;;
            add Confirm None None ;; remove "ui/Confirm" true) Dialog).

Definition Dialog_two : Layer :=
  Eval vm_compute in
    final ((add (mkUIConfig "ui/Alert" None) None None ;;
            resolve 0 None InstNode) Dialog_shown).

Definition Dialog_clash : Layer :=
  Eval vm_compute in
    final ((add (mkUIConfig "Dialog_ui_Confirm" None) None None ;;
            resolve 0 None InstNode ;;
            remove "Dialog_ui_Confirm" true)
             (final ((add Confirm None None ;; resolve 0 None InstNode) Dialog))).


(** The pattern [/^ui\//g]: it matches at index 0 only, a string that
    starts with "ui/", and then stands at index 3; any other call fails and
    rewinds it. *)
Definition re_ui_g : RegExp :=
  mkRegExp 0 (fun i s => if Nat.eqb i 0 && String.prefix "ui/" s
                         then (true, 3) else (false, 0)).

(** Running a method: unfold the monad. *)
Ltac run :=
  cbv beta iota delta [bind gets modify ret throw emit assign final
                       Delegate_add getComponent viewParamsOf].

(** ** Facts about the map *)
Module JsMapFacts.
Import JsMap.

Section WithValues.
Context {V : Type}.
Implicit Types (m : t V) (k : string) (v : V).

Lemma get_set_eq k v m : get k (set k v m) = Some v.
Proof.
  induction m as [|[k' v'] m IH]; simpl.
  - now rewrite String.eqb_refl.
  - destruct (String.eqb k' k) eqn:E; simpl; rewrite E; auto.
Qed.

Lemma get_set_ne k k' v m : k <> k' -> get k' (set k v m) = get k' m.
Proof.
  intros Hne. induction m as [|[k0 v0] m IH]; simpl.
  - destruct (String.eqb k k') eqn:E; auto.
    apply String.eqb_eq in E. contradiction.
  - destruct (String.eqb k0 k) eqn:E; simpl.
    + apply String.eqb_eq in E. subst k0.
      destruct (String.eqb k k') eqn:E'; auto.
      apply String.eqb_eq in E'. contradiction.
    + now rewrite IH.
Qed.

Lemma get_none_keys k m : get k m = None <-> ~ In k (keys m).
Proof.
  induction m as [|[k' v'] m IH]; simpl.
  - tauto.
  - destruct (String.eqb k' k) eqn:E.
    + apply String.eqb_eq in E. split; [discriminate | tauto].
    + apply String.eqb_neq in E. rewrite IH. tauto.
Qed.

Lemma get_some_keys k v m : get k m = Some v -> In k (keys m).
Proof.
  intros H. destruct (in_dec string_dec k (keys m)) as [|Hn]; auto.
  apply get_none_keys in Hn. congruence.
Qed.

Lemma keys_set k v m k' : In k' (keys (set k v m)) <-> k' = k \/ In k' (keys m).
Proof.
  induction m as [|[k0 v0] m IH]; simpl.
  - intuition.
  - destruct (String.eqb k0 k) eqn:E; simpl.
    + apply String.eqb_eq in E. subst. intuition.
    + rewrite IH. intuition.
Qed.

Lemma NoDup_set k v m : NoDup (keys m) -> NoDup (keys (set k v m)).
Proof.
  induction m as [|[k0 v0] m IH]; simpl; intros H.
  - constructor; [simpl; tauto | constructor].
  - inversion H as [|? ? Hn Hd]; subst.
    destruct (String.eqb k0 k) eqn:E; simpl.
    + constructor; auto.
    + constructor; auto. rewrite keys_set. apply String.eqb_neq in E.
      intros [->|]; auto.
Qed.

Lemma keys_delete k m k' : In k' (keys (delete k m)) -> In k' (keys m).
Proof.
  induction m as [|[k0 v0] m IH]; simpl; auto.
  destruct (String.eqb k0 k); simpl; intuition.
Qed.

Lemma NoDup_delete k m : NoDup (keys m) -> NoDup (keys (delete k m)).
Proof.
  induction m as [|[k0 v0] m IH]; simpl; intros H; auto.
  inversion H as [|? ? Hn Hd]; subst.
  destruct (String.eqb k0 k); simpl; auto.
  constructor; auto. intros Hin. apply Hn. eapply keys_delete; eauto.
Qed.

Lemma get_delete_eq k m : NoDup (keys m) -> get k (delete k m) = None.
Proof.
  induction m as [|[k0 v0] m IH]; simpl; intros H; auto.
  inversion H as [|? ? Hn Hd]; subst.
  destruct (String.eqb k0 k) eqn:E; simpl.
  - apply String.eqb_eq in E. subst. now apply get_none_keys.
  - rewrite E. auto.
Qed.

Lemma get_delete_ne k k' m : k <> k' -> get k' (delete k m) = get k' m.
Proof.
  intros Hne. induction m as [|[k0 v0] m IH]; simpl; auto.
  destruct (String.eqb k0 k) eqn:E; simpl.
  - apply String.eqb_eq in E. subst.
    destruct (String.eqb k k') eqn:E'; auto.
    apply String.eqb_eq in E'. contradiction.
  - now rewrite IH.
Qed.

Lemma get_delete_some k k' v m :
  NoDup (keys m) -> get k' (delete k m) = Some v -> get k' m = Some v.
Proof.
  intros Hnd H. destruct (string_dec k k') as [->|Hne].
  - rewrite get_delete_eq in H; [discriminate | auto].
  - now rewrite get_delete_ne in H.
Qed.

Lemma count_absent k m : ~ In k (keys m) -> count k m = 0.
Proof.
  unfold count. induction m as [|[k0 v0] m IH]; simpl; intros H; auto.
  destruct (String.eqb k0 k) eqn:E.
  - apply String.eqb_eq in E. tauto.
  - apply IH. tauto.
Qed.

Lemma count_present k v m : NoDup (keys m) -> get k m = Some v -> count k m = 1.
Proof.
  unfold count. induction m as [|[k0 v0] m IH]; simpl; intros Hnd H.
  - discriminate.
  - inversion Hnd as [|? ? Hn Hd]; subst.
    destruct (String.eqb k0 k) eqn:E; simpl.
    + apply String.eqb_eq in E. subst.
      f_equal. now apply (count_absent k m).
    + auto.
Qed.

Lemma has_get k m : has k m = true <-> exists v, get k m = Some v.
Proof.
  unfold has. destruct (get k m); split; eauto; try discriminate.
  intros [? ?]. discriminate.
Qed.

Lemma get_in k v m : get k m = Some v -> In (k, v) m.
Proof.
  induction m as [|[k0 v0] m IH]; simpl; [discriminate|].
  destruct (String.eqb k0 k) eqn:E.
  - apply String.eqb_eq in E. intros [= ->]. subst. auto.
  - auto.
Qed.

Lemma in_get k v m : NoDup (keys m) -> In (k, v) m -> get k m = Some v.
Proof.
  induction m as [|[k0 v0] m IH]; simpl; intros Hnd H; [tauto|].
  inversion Hnd as [|? ? Hn Hd]; subst.
  destruct H as [[= -> ->]|H].
  - now rewrite String.eqb_refl.
  - destruct (String.eqb k0 k) eqn:E; auto.
    apply String.eqb_eq in E. subst. exfalso. apply Hn.
    change k with (fst (k, v)). now apply in_map.
Qed.

End WithValues.
End JsMapFacts.

(** ** Facts about the stores *)
Section Stores.
Context {A : Type}.
Implicit Types (l : list A) (f : A -> A) (d : A).

Lemma length_upd i f l : length (upd i f l) = length l.
Proof.
  revert i. induction l as [|x l IH]; intros [|i]; simpl; auto.
Qed.

Lemma nth_upd_eq i f l d : i < length l -> nth i (upd i f l) d = f (nth i l d).
Proof.
  revert i. induction l as [|x l IH]; intros [|i]; simpl; intros H;
    try lia; auto. apply IH. lia.
Qed.

Lemma nth_upd_ne i j f l d : i <> j -> nth j (upd i f l) d = nth j l d.
Proof.
  revert i j. induction l as [|x l IH]; intros [|i] [|j]; simpl; intros H;
    auto; try congruence.
Qed.

Lemma upd_same i f l d : f (nth i l d) = nth i l d -> upd i f l = l.
Proof.
  revert i. induction l as [|x l IH]; intros [|i]; simpl; intros H; auto.
  - now rewrite H.
  - f_equal. auto.
Qed.

(** A field [g] that the assignment [f] leaves alone reads the same
    afterwards, at every reference. *)
Lemma nth_upd_field {B} (g : A -> B) i j f l d :
  (forall x, g (f x) = g x) -> g (nth j (upd i f l) d) = g (nth j l d).
Proof.
  intros Hg. destruct (Nat.eq_dec i j) as [->|Hne].
  - destruct (Nat.lt_ge_cases j (length l)) as [Hlt|Hge].
    + rewrite nth_upd_eq by auto. apply Hg.
    + rewrite !nth_overflow; auto. now rewrite length_upd.
  - now rewrite nth_upd_ne.
Qed.

Lemma nth_snoc_old i l x d : i < length l -> nth i (l ++ [x]) d = nth i l d.
Proof. intros H. now rewrite app_nth1. Qed.

Lemma nth_snoc_new l x d : nth (length l) (l ++ [x]) d = x.
Proof. rewrite app_nth2, Nat.sub_diag; auto. Qed.

Lemma In_remove_nth k l x : In x (remove_nth k l) -> In x l.
Proof.
  unfold remove_nth. revert k.
  induction l as [|y l IH]; intros [|k]; simpl; auto.
  intros [H|H]; [left; exact H | right; exact (IH k H)].
Qed.
End Stores.

Lemma In_remove_id n l c : In c (remove_id n l) <-> In c l /\ c <> n.
Proof.
  induction l as [|x l IH]; simpl.
  - tauto.
  - destruct (Nat.eqb x n) eqn:E.
    + apply Nat.eqb_eq in E. subst. rewrite IH. intuition congruence.
    + apply Nat.eqb_neq in E. simpl. rewrite IH. intuition congruence.
Qed.

Lemma NoDup_map_remove_nth {A B} (g : A -> B) k (l : list A) :
  NoDup (map g l) -> NoDup (map g (remove_nth k l)).
Proof.
  unfold remove_nth. revert k. induction l as [|x l IH]; intros k H.
  - destruct k; simpl; constructor.
  - inversion H as [|? ? Hn Hd]; subst. destruct k; simpl.
    + exact Hd.
    + constructor.
      * intros Hin. apply Hn. apply in_map_iff in Hin.
        destruct Hin as [y [Hy Hin]]. apply in_map_iff. exists y. split; auto.
        apply (In_remove_nth k l y Hin).
      * apply IH; auto.
Qed.

(** ** Rules for triples *)
Section Rules.
Context {A B : Type}.

Lemma hoare_bind (P : Layer -> Prop) (m : M A) (R : A -> Layer -> Prop)
      (k : A -> M B) (Q : B -> Layer -> Prop) (E : Layer -> Prop) :
  hoare P m R E -> (forall a, hoare (R a) (k a) Q E) -> hoare P (bind m k) Q E.
Proof.
  intros Hm Hk w HP. unfold bind. specialize (Hm w HP).
  destruct (m w) as [a w'|e w']; auto. now apply Hk.
Qed.

Lemma hoare_weaken (P P' : Layer -> Prop) (m : M A)
      (Q Q' : A -> Layer -> Prop) (E E' : Layer -> Prop) :
  hoare P' m Q' E' ->
  (forall w, P w -> P' w) -> (forall a w, Q' a w -> Q a w) ->
  (forall w, E' w -> E w) -> hoare P m Q E.
Proof.
  intros H HP HQ HE w Hw. specialize (H w (HP w Hw)).
  destruct (m w); auto.
Qed.

Lemma keeps_bind (P : Layer -> Prop) (m : M A) (k : A -> M B) :
  keeps P m -> (forall a, keeps P (k a)) -> keeps P (bind m k).
Proof. intros Hm Hk. eapply hoare_bind; eauto. Qed.

(** After reading [f], the continuation may use what was read. *)
Lemma keeps_gets (P : Layer -> Prop) (f : Layer -> A) (k : A -> M B) :
  (forall a, hoare (fun w => P w /\ f w = a) (k a) (fun _ => P) P) ->
  keeps P (bind (gets f) k).
Proof.
  intros Hk w HP. unfold bind, gets. apply (Hk (f w) w). auto.
Qed.
End Rules.

Lemma keeps_ret {A} (P : Layer -> Prop) (a : A) : keeps P (ret a).
Proof. intros w HP. exact HP. Qed.

Lemma keeps_throw {A} (P : Layer -> Prop) e : keeps P (@throw A e).
Proof. intros w HP. exact HP. Qed.

Lemma keeps_modify (P : Layer -> Prop) f :
  (forall w, P w -> P (f w)) -> keeps P (modify f).
Proof. intros H w HP. apply H, HP. Qed.

Lemma keeps_final {A} (P : Layer -> Prop) (m : M A) w :
  keeps P m -> P w -> P (final (m w)).
Proof. intros H HP. specialize (H w HP). destruct (m w); auto. Qed.

Import JsMapFacts.

(** ** Reading the stores after an update *)
Lemma rd_with_recs_upd_eq r f w :
  r < length (recs w) -> rd (with_recs (upd r f) w) r = f (rd w r).
Proof. intros H. unfold rd. simpl. now apply nth_upd_eq. Qed.

Lemma rd_with_recs_upd_ne r r' f w :
  r <> r' -> rd (with_recs (upd r f) w) r' = rd w r'.
Proof. intros H. unfold rd. simpl. now apply nth_upd_ne. Qed.

Lemma rd_with_recs_upd_field {B} (g : ViewParams -> B) r r' f w :
  (forall p, g (f p) = g p) -> g (rd (with_recs (upd r f) w) r') = g (rd w r').
Proof. intros H. unfold rd. simpl. now apply nth_upd_field. Qed.

Lemma rd_snoc_old r x w :
  r < length (recs w) -> rd (with_recs (fun l => l ++ [x]) w) r = rd w r.
Proof. intros H. unfold rd. simpl. now apply nth_snoc_old. Qed.

Lemma rd_snoc_new x w : rd (with_recs (fun l => l ++ [x]) w) (length (recs w)) = x.
Proof. unfold rd. simpl. apply nth_snoc_new. Qed.

Lemma rd_beyond w r : length (recs w) <= r -> rd w r = nullViewParams.
Proof. intros H. unfold rd. now apply nth_overflow. Qed.

Lemma nd_beyond w n : length (nodes w) <= n -> nd w n = nullNode.
Proof. intros H. unfold nd. now apply nth_overflow. Qed.

Lemma node_in_range w r n : node (rd w r) = Some n -> r < length (recs w).
Proof.
  intros H. destruct (Nat.lt_ge_cases r (length (recs w))); auto.
  rewrite rd_beyond in H by auto. discriminate.
Qed.

Lemma delegate_in_range w n r : delegate (nd w n) = Some r -> n < length (nodes w).
Proof.
  intros H. destruct (Nat.lt_ge_cases n (length (nodes w))); auto.
  rewrite nd_beyond in H by auto. discriminate.
Qed.

Lemma valid_in_range w r : valid (rd w r) = true -> r < length (recs w).
Proof.
  intros H. destruct (Nat.lt_ge_cases r (length (recs w))); auto.
  rewrite rd_beyond in H by auto. discriminate.
Qed.

(** ** The invariant under each elementary update *)

Lemma inv_new layerName defaultBundle : inv (new_LayerUI layerName defaultBundle).
Proof.
  constructor; simpl.
  - constructor.
  - constructor.
  - discriminate.
  - discriminate.
  - intros r n. unfold rd. simpl. destruct r; discriminate.
  - intros n r. unfold nd. simpl. destruct n; discriminate.
  - tauto.
  - tauto.
  - constructor.
Qed.

Lemma inv_with_log f w : inv w -> inv (with_log f w).
Proof. intros [H1 H2 H3 H4 H5 H6 H7 H8 H9]. constructor; auto. Qed.

Lemma inv_with_children f w :
  inv w -> (forall c, In c (f (children w)) -> c < length (nodes w)) ->
  inv (with_children f w).
Proof. intros [H1 H2 H3 H4 H5 H6 H7 H8 H9] Hf. constructor; auto. Qed.

Lemma inv_with_pending_remove k w : inv w -> inv (with_pending (remove_nth k) w).
Proof.
  intros [H1 H2 H3 H4 H5 H6 H7 H8 H9]. constructor; auto.
  - intros rq Hin. apply H8. simpl in Hin. eapply In_remove_nth; eauto.
  - simpl. now apply NoDup_map_remove_nth.
Qed.

Lemma inv_with_pending_push rq w :
  inv w ->
  req_viewParams rq < length (recs w) ->
  node (rd w (req_viewParams rq)) = None ->
  valid (rd w (req_viewParams rq)) = true ->
  (forall rq', In rq' (pending w) -> req_viewParams rq' <> req_viewParams rq) ->
  inv (with_pending (fun q => q ++ [rq]) w).
Proof.
  intros [H1 H2 H3 H4 H5 H6 H7 H8 H9] Hr Hn Hv Hfresh. constructor; auto.
  - intros rq' Hin. simpl in Hin. apply in_app_iff in Hin.
    destruct Hin as [Hin|[<-|[]]]; auto.
  - simpl. rewrite map_app. simpl.
    apply NoDup_app; auto.
    + constructor; [simpl; tauto | constructor].
    + intros a Ha [<-|[]]. apply in_map_iff in Ha.
      destruct Ha as [rq' [Heq Hin]]. eapply Hfresh; eauto.
Qed.

Lemma inv_with_alive n b w : inv w -> inv (with_nodes (upd n (set_alive b)) w).
Proof.
  intros [H1 H2 H3 H4 H5 H6 H7 H8 H9].
  assert (Hd : forall m, delegate (nd (with_nodes (upd n (set_alive b)) w) m)
                         = delegate (nd w m)).
  { intros m. unfold nd. simpl. now apply nth_upd_field. }
  constructor; auto.
  - intros r m Hm. simpl. rewrite length_upd, Hd. now apply H5.
  - intros m r. rewrite Hd. apply H6.
  - intros c Hc. simpl. rewrite length_upd. now apply H7.
Qed.

Lemma inv_ui_nodes_delete k w : inv w -> inv (with_ui_nodes (JsMap.delete k) w).
Proof.
  intros [H1 H2 H3 H4 H5 H6 H7 H8 H9]. constructor; auto.
  - simpl. now apply NoDup_delete.
  - intros k' r Hg. simpl in Hg. apply get_delete_some in Hg; auto.
Qed.

Lemma inv_ui_nodes_clear w : inv w -> inv (with_ui_nodes (fun _ => JsMap.empty) w).
Proof.
  intros [H1 H2 H3 H4 H5 H6 H7 H8 H9]. constructor; auto.
  - simpl. constructor.
  - intros k r Hg. discriminate.
Qed.

Lemma inv_ui_nodes_set k r w :
  inv w -> r < length (recs w) -> uuid (rd w r) = k ->
  inv (with_ui_nodes (JsMap.set k r) w).
Proof.
  intros [H1 H2 H3 H4 H5 H6 H7 H8 H9] Hr Hu. constructor; auto.
  - simpl. now apply NoDup_set.
  - intros k' r' Hg. simpl in Hg. destruct (string_dec k k') as [<-|Hne].
    + rewrite get_set_eq in Hg. injection Hg as <-. auto.
    + rewrite get_set_ne in Hg by auto. now apply H3.
Qed.

Lemma inv_ui_cache_delete p w : inv w -> inv (with_ui_cache (JsMap.delete p) w).
Proof.
  intros [H1 H2 H3 H4 H5 H6 H7 H8 H9]. constructor; auto.
  - simpl. now apply NoDup_delete.
  - intros p' r Hg. simpl in Hg. apply get_delete_some in Hg; auto.
Qed.

Lemma inv_ui_cache_set p r w :
  inv w -> r < length (recs w) -> prefabPath (rd w r) = p ->
  node (rd w r) <> None ->
  inv (with_ui_cache (JsMap.set p r) w).
Proof.
  intros [H1 H2 H3 H4 H5 H6 H7 H8 H9] Hr Hp Hn. constructor; auto.
  - simpl. now apply NoDup_set.
  - intros p' r' Hg. simpl in Hg. destruct (string_dec p p') as [<-|Hne].
    + rewrite get_set_eq in Hg. injection Hg as <-. auto.
    + rewrite get_set_ne in Hg by auto. now apply H4.
Qed.

(** An assignment to [params], [callbacks] or [valid]: identifier, path
    and visual are untouched; a record that still awaits its visual must
    not lose its validity. *)
Lemma inv_assign r g w :
  inv w ->
  (forall p, uuid (g p) = uuid p) ->
  (forall p, prefabPath (g p) = prefabPath p) ->
  (forall p, node (g p) = node p) ->
  (node (rd w r) = None -> forall p, valid p = true -> valid (g p) = true) ->
  inv (with_recs (upd r g) w).
Proof.
  intros [H1 H2 H3 H4 H5 H6 H7 H8 H9] Gu Gp Gn Gv.
  constructor; auto; simpl.
  - intros k r' Hg. rewrite length_upd, (rd_with_recs_upd_field uuid) by auto.
    now apply H3.
  - intros p r' Hg. rewrite length_upd, (rd_with_recs_upd_field prefabPath),
      (rd_with_recs_upd_field node) by auto.
    now apply H4.
  - intros r' n. rewrite (rd_with_recs_upd_field node) by auto. apply H5.
  - intros n r'. rewrite length_upd, (rd_with_recs_upd_field node) by auto.
    apply H6.
  - intros rq Hin. destruct (H8 rq Hin) as (Hr & Hn & Hv).
    rewrite length_upd, (rd_with_recs_upd_field node) by auto.
    repeat split; auto.
    destruct (Nat.eq_dec r (req_viewParams rq)) as [->|Hne].
    + rewrite rd_with_recs_upd_eq by auto. auto.
    + now rewrite rd_with_recs_upd_ne.
Qed.

Lemma inv_new_record x w : inv w -> node x = None ->
  inv (with_recs (fun l => l ++ [x]) w).
Proof.
  intros [H1 H2 H3 H4 H5 H6 H7 H8 H9] Hx.
  assert (Hlen : length (recs (with_recs (fun l => l ++ [x]) w))
                 = S (length (recs w))).
  { simpl. rewrite length_app. simpl. lia. }
  constructor; auto.
  - intros k r Hg. destruct (H3 k r Hg) as [Hr Hu].
    rewrite Hlen, rd_snoc_old by auto. split; [lia | auto].
  - intros p r Hg. destruct (H4 p r Hg) as (Hr & Hp & Hn).
    rewrite Hlen, rd_snoc_old by auto. repeat split; [lia | auto | auto].
  - intros r n Hn.
    destruct (Nat.lt_ge_cases r (length (recs w))) as [Hlt|Hge].
    + rewrite rd_snoc_old in Hn by auto. now apply H5.
    + apply node_in_range in Hn as Hr. rewrite Hlen in Hr.
      assert (r = length (recs w)) as -> by lia.
      rewrite rd_snoc_new in Hn. congruence.
  - intros n r Hd. destruct (H6 n r Hd) as [Hr Hn].
    rewrite Hlen, rd_snoc_old by auto. split; [lia | auto].
  - intros rq Hin. destruct (H8 rq Hin) as (Hr & Hn & Hv).
    rewrite Hlen, rd_snoc_old by auto. repeat split; [lia | auto | auto].
Qed.

Lemma nd_bind_visual_new r w :
  nd (bind_visual r w) (length (nodes w)) = mkNodeObj (Some r) true.
Proof.
  unfold nd, bind_visual. simpl.
  rewrite nth_upd_eq by (rewrite length_app; simpl; lia).
  now rewrite nth_snoc_new.
Qed.

Lemma nd_bind_visual_old r w n :
  n <> length (nodes w) -> nd (bind_visual r w) n = nd w n.
Proof.
  intros Hn. unfold nd, bind_visual. simpl.
  rewrite nth_upd_ne by auto.
  destruct (Nat.lt_ge_cases n (length (nodes w))) as [Hlt|Hge].
  - now apply nth_snoc_old.
  - rewrite !nth_overflow; auto. rewrite length_app. simpl. lia.
Qed.

Lemma rd_bind_visual_eq r w :
  r < length (recs w) ->
  rd (bind_visual r w) r = set_node (Some (length (nodes w))) (rd w r).
Proof. intros H. unfold rd, bind_visual. simpl. now apply nth_upd_eq. Qed.

Lemma rd_bind_visual_ne r r' w : r <> r' -> rd (bind_visual r w) r' = rd w r'.
Proof. intros H. unfold rd, bind_visual. simpl. now apply nth_upd_ne. Qed.

Lemma length_nodes_bind_visual r w :
  length (nodes (bind_visual r w)) = S (length (nodes w)).
Proof.
  unfold bind_visual. simpl. rewrite length_upd, length_app. simpl. lia.
Qed.

Lemma length_recs_bind_visual r w :
  length (recs (bind_visual r w)) = length (recs w).
Proof. unfold bind_visual. simpl. now rewrite length_upd. Qed.

Lemma inv_bind_visual r w :
  inv w -> r < length (recs w) -> node (rd w r) = None ->
  (forall rq, In rq (pending w) -> req_viewParams rq <> r) ->
  inv (bind_visual r w).
Proof.
  intros [H1 H2 H3 H4 H5 H6 H7 H8 H9] Hr Hn Hfresh.
  assert (Hrd : forall r', r' <> r -> rd (bind_visual r w) r' = rd w r').
  { intros r' Hne. apply rd_bind_visual_ne. auto. }
  constructor; auto.
  - intros k r' Hg. destruct (H3 k r' Hg) as [Hr' Hu].
    rewrite length_recs_bind_visual. split; auto.
    destruct (Nat.eq_dec r' r) as [->|Hne].
    + now rewrite rd_bind_visual_eq.
    + now rewrite Hrd.
  - intros p r' Hg. destruct (H4 p r' Hg) as (Hr' & Hp & Hn').
    rewrite length_recs_bind_visual. split; auto.
    destruct (Nat.eq_dec r' r) as [->|Hne].
    + congruence.
    + now rewrite Hrd.
  - intros r' n Hn'. rewrite length_nodes_bind_visual.
    destruct (Nat.eq_dec r' r) as [->|Hne].
    + rewrite rd_bind_visual_eq in Hn' by auto. simpl in Hn'.
      injection Hn' as <-. rewrite nd_bind_visual_new. auto.
    + rewrite Hrd in Hn' by auto. destruct (H5 r' n Hn') as [Hlt Hd].
      rewrite nd_bind_visual_old by lia. auto.
  - intros n r' Hd. rewrite length_recs_bind_visual.
    destruct (Nat.eq_dec n (length (nodes w))) as [->|Hne].
    + rewrite nd_bind_visual_new in Hd. simpl in Hd. injection Hd as <-.
      rewrite rd_bind_visual_eq by auto. simpl. split; [auto | discriminate].
    + rewrite nd_bind_visual_old in Hd by auto.
      destruct (H6 n r' Hd) as [Hr' Hn'].
      rewrite Hrd by congruence. auto.
  - intros c Hc. rewrite length_nodes_bind_visual.
    apply H7 in Hc. lia.
  - intros rq Hin. destruct (H8 rq Hin) as (Hr' & Hn' & Hv).
    rewrite length_recs_bind_visual, Hrd by (now apply Hfresh). auto.
Qed.

(** ** The invariant under the operations *)


Lemma inv_node_lt w r n : inv w -> node (rd w r) = Some n -> n < length (nodes w).
Proof. intros H Hn. now apply (inv_visual w H r n). Qed.

Lemma inv_node_delegate w r n :
  inv w -> node (rd w r) = Some n -> delegate (nd w n) = Some r.
Proof. intros H Hn. now apply (inv_visual w H r n). Qed.

Lemma inv_not_pending w r :
  inv w -> (node (rd w r) <> None \/ valid (rd w r) = false) ->
  forall rq, In rq (pending w) -> req_viewParams rq <> r.
Proof.
  intros H Hr rq Hin Heq. subst r.
  destruct (inv_pending w H rq Hin) as (_ & Hn & Hv).
  destruct Hr; congruence.
Qed.

Lemma inv_set_parent n w : inv w -> n < length (nodes w) -> inv (set_parent n w).
Proof.
  intros H Hn. unfold set_parent. destruct (existsb _ _); auto.
  apply inv_with_children; auto. intros c Hc. apply in_app_iff in Hc.
  destruct Hc as [Hc|[<-|[]]]; auto. now apply (inv_children w H).
Qed.

Lemma inv_set_valid_true r w : inv w -> inv (with_recs (upd r (set_valid true)) w).
Proof. intros H. apply inv_assign; auto. Qed.

Lemma inv_set_valid_false r w :
  inv w -> node (rd w r) <> None -> inv (with_recs (upd r (set_valid false)) w).
Proof. intros H Hn. apply inv_assign; auto. Qed.

Lemma Delegate_remove_inv n d : keeps inv (Delegate_remove n d).
Proof.
  intros w Hw. unfold Delegate_remove. run.
  assert (H1 : inv (with_children (remove_id n) (with_log (fun l => l ++ [OnRemove n d]) w))).
  { apply inv_with_children; [now apply inv_with_log|].
    intros c Hc. simpl in Hc. apply In_remove_id in Hc.
    now apply (inv_children w Hw). }
  destruct d; run; auto. now apply inv_with_alive.
Qed.

Lemma createNode_inv r : keeps inv (createNode r).
Proof.
  intros w Hw. unfold createNode. run.
  pose proof (inv_set_valid_true r w Hw) as H1.
  destruct (node (rd _ r)) as [n|] eqn:En; [|exact H1].
  destruct (delegate (nd _ n)) eqn:Ed; [|exact H1].
  apply inv_set_parent.
  - now apply inv_with_log.
  - exact (inv_node_lt _ r n H1 En).
Qed.

Lemma load_inv r b :
  hoare (fun w => inv w /\ r < length (recs w) /\ valid (rd w r) = true
                  /\ JsMap.get (uuid (rd w r)) (ui_nodes w) = Some r
                  /\ (node (rd w r) = None ->
                      forall rq, In rq (pending w) -> req_viewParams rq <> r))
        (load r b) (fun _ => inv) inv.
Proof.
  intros w (Hw & Hr & Hv & Hg & Hfresh). unfold load. run.
  rewrite Hg.
  destruct (node (rd w r)) as [n|] eqn:En.
  - pose proof (createNode_inv r w Hw) as Hc.
    destruct (createNode r w); auto.
  - apply inv_with_pending_push; auto. now apply inv_with_log.
Qed.

Lemma with_recs_upd_same r f w : f (rd w r) = rd w r -> with_recs (upd r f) w = w.
Proof.
  intros H. unfold with_recs. rewrite (upd_same r f (recs w) nullViewParams H).
  now destruct w.
Qed.

Lemma set_node_same v p : node p = v -> set_node v p = p.
Proof. intros <-. now destruct p. Qed.

Lemma loadCallback_logs rq e inst w :
  loadCallback rq (Some e) inst w
  = loadCallback rq None inst (with_log (fun l => l ++ [Error e]) w).
Proof. reflexivity. Qed.

Lemma loadCallback_node rq w :
  loadCallback rq None InstNode w
  = match createNode (req_viewParams rq) (bind_visual (req_viewParams rq) w) with
    | Done _ w' => Done tt w'
    | Throw e w' => Throw e w'
    end.
Proof. reflexivity. Qed.

Lemma loadCallback_inv rq err inst :
  hoare (fun w => inv w /\ req_viewParams rq < length (recs w)
                  /\ node (rd w (req_viewParams rq)) = None
                  /\ (forall rq', In rq' (pending w) ->
                                  req_viewParams rq' <> req_viewParams rq))
        (loadCallback rq err inst) (fun _ => inv) inv.
Proof.
  assert (Hpre : hoare (fun w => inv w /\ req_viewParams rq < length (recs w)
                  /\ node (rd w (req_viewParams rq)) = None
                  /\ (forall rq', In rq' (pending w) ->
                                  req_viewParams rq' <> req_viewParams rq))
        (loadCallback rq None inst) (fun _ => inv) inv).
  { intros w (Hw & Hr & Hn & Hfresh). destruct inst.
    - rewrite loadCallback_node.
      pose proof (createNode_inv (req_viewParams rq) _
                    (inv_bind_visual _ w Hw Hr Hn Hfresh)) as Hc.
      destruct (createNode _ _); auto.
    - unfold loadCallback. run.
      rewrite with_recs_upd_same; auto. now apply set_node_same.
    - exact Hw. }
  intros w (Hw & Hr & Hn & Hfresh). destruct err as [e|].
  - rewrite loadCallback_logs. apply Hpre.
    exact (conj (inv_with_log _ _ Hw) (conj Hr (conj Hn Hfresh))).
  - apply Hpre. auto.
Qed.

Lemma nth_error_remove_nth_fresh {A B} (g : A -> B) k (l : list A) x :
  NoDup (map g l) -> nth_error l k = Some x ->
  forall y, In y (remove_nth k l) -> g y <> g x.
Proof.
  unfold remove_nth. revert k. induction l as [|a l IH]; intros k Hnd Hk y Hy.
  - destruct k; discriminate.
  - inversion Hnd as [|? ? Hn Hd]; subst. destruct k; simpl in *.
    + injection Hk as <-. intros Heq. apply Hn. rewrite <- Heq. now apply in_map.
    + destruct Hy as [<-|Hy].
      * intros Heq. apply Hn. rewrite Heq. apply in_map.
        eapply nth_error_In; eauto.
      * eapply IH; eauto.
Qed.

Lemma resolve_inv k err inst : keeps inv (resolve k err inst).
Proof.
  intros w Hw. unfold resolve. run.
  destruct (nth_error (pending w) k) as [rq|] eqn:Ek; [|exact Hw].
  apply nth_error_In in Ek as Hin.
  destruct (inv_pending w Hw rq Hin) as (Hr & Hn & Hv).
  apply (loadCallback_inv rq err inst (with_pending (remove_nth k) w)).
  split; [now apply inv_with_pending_remove|].
  split; [exact Hr|]. split; [exact Hn|].
  intros rq' Hin'. simpl in Hin'.
  eapply (nth_error_remove_nth_fresh req_viewParams); eauto.
  apply (inv_pending_once w Hw).
Qed.

Lemma rd_claim_field {B} (g : ViewParams -> B) r p c w r' :
  (forall v x, g (set_valid v x) = g x) ->
  (forall v x, g (set_callbacks v x) = g x) ->
  (forall v x, g (set_params v x) = g x) ->
  g (rd (claim r p c w) r') = g (rd w r').
Proof.
  intros H1 H2 H3. unfold claim.
  rewrite !rd_with_recs_upd_field; auto.
Qed.

Lemma rd_claim_ne r p c w r' : r <> r' -> rd (claim r p c w) r' = rd w r'.
Proof. intros H. unfold claim. now rewrite !rd_with_recs_upd_ne. Qed.

Lemma valid_claim r p c w : r < length (recs w) -> valid (rd (claim r p c w) r) = true.
Proof.
  intros H. unfold claim. rewrite rd_with_recs_upd_eq; auto.
  simpl. now rewrite !length_upd.
Qed.

Lemma length_recs_claim r p c w : length (recs (claim r p c w)) = length (recs w).
Proof. unfold claim. simpl. now rewrite !length_upd. Qed.

Lemma inv_claim r p c w : inv w -> inv (claim r p c w).
Proof. intros H. unfold claim. repeat apply inv_assign; auto. Qed.

Lemma add_tail_inv r p c b w :
  inv w -> r < length (recs w) ->
  JsMap.get (uuid (rd w r)) (ui_nodes w) = Some r ->
  (node (rd w r) = None -> forall rq, In rq (pending w) -> req_viewParams rq <> r) ->
  inv (final (load r b (claim r p c w))).
Proof.
  intros Hw Hr Hg Hfresh.
  pose proof (load_inv r b (claim r p c w)) as Hl.
  destruct (load r b (claim r p c w)); apply Hl.
  all: split; [now apply inv_claim|].
  all: rewrite length_recs_claim, valid_claim by auto.
  all: rewrite (rd_claim_field uuid), (rd_claim_field node) by auto.
  all: auto.
Qed.

Lemma add_inv config p c : keeps inv (add config p c).
Proof.
  intros w Hw. unfold add. run.
  destruct (JsMap.get (getUuid (name w) (prefab config)) (ui_nodes w)) as [r|] eqn:Eg.
  - destruct (valid (rd w r)) eqn:Ev.
    + now apply inv_with_log.
    + destruct (inv_active w Hw _ _ Eg) as [Hr Hu].
      fold (claim r p c w).
      assert (H : inv (final (load r (bundle config) (claim r p c w)))).
      { apply add_tail_inv; auto.
        - now rewrite Hu.
        - intros _. apply inv_not_pending; auto. }
      destruct (load r (bundle config) (claim r p c w)); exact H.
  - set (u := getUuid (name w) (prefab config)) in *.
    set (x := mkViewParams u (prefab config) None EmptyObject EmptyObject true).
    set (w1 := with_ui_nodes (JsMap.set u (length (recs w)))
                 (with_recs (fun l => l ++ [x]) w)).
    fold (claim (length (recs w)) p c w1).
    assert (H1 : inv w1).
    { apply inv_ui_nodes_set.
      - now apply inv_new_record.
      - simpl. rewrite length_app. simpl. lia.
      - change (uuid (rd (with_recs (fun l => l ++ [x]) w) (length (recs w))) = u).
        now rewrite rd_snoc_new. }
    assert (Hx : rd w1 (length (recs w)) = x).
    { change (rd (with_recs (fun l => l ++ [x]) w) (length (recs w)) = x).
      apply rd_snoc_new. }
    assert (H : inv (final (load (length (recs w)) (bundle config)
                              (claim (length (recs w)) p c w1)))).
    { apply add_tail_inv; auto.
      - simpl. rewrite length_app. simpl. lia.
      - rewrite Hx. simpl. apply get_set_eq.
      - intros _ rq Hin. simpl in Hin.
        destruct (inv_pending w Hw rq Hin) as (Hlt & _). lia. }
    destruct (load _ _ _); exact H.
Qed.

Lemma removeCache_inv path : keeps inv (removeCache path).
Proof.
  intros w Hw. unfold removeCache. run.
  destruct (JsMap.get path (ui_cache w)) as [r|] eqn:Eg; [|exact Hw].
  destruct (node (rd w r)) as [n|] eqn:En; [|exact Hw].
  destruct (delegate (nd w n)) eqn:Ed; [|exact Hw].
  pose proof (Delegate_remove_inv n true w Hw) as Hd.
  destruct (Delegate_remove n true w) as [[] w1|e w1]; [|exact Hd].
  apply inv_ui_cache_delete. now apply inv_ui_nodes_delete.
Qed.

Lemma removeByUuid_inv u d : keeps inv (removeByUuid u d).
Proof.
  intros w Hw. unfold removeByUuid. run.
  destruct (JsMap.get u (ui_nodes w)) as [r|] eqn:Eg; [|exact Hw].
  destruct d; run.
  - pose proof (inv_ui_nodes_delete (uuid (rd w r)) w Hw) as H0.
    destruct (node (rd _ r)) as [n|]; [|exact H0].
    destruct (delegate (nd _ n)); [|exact H0].
    apply (Delegate_remove_inv n true _ H0).
  - destruct (node (rd w r)) as [n|]; [|exact Hw].
    destruct (delegate (nd w n)); [|exact Hw].
    apply (Delegate_remove_inv n false w Hw).
Qed.

Lemma Delegate_remove_run n d w : Delegate_remove n d w = Done tt (detached n d w).
Proof. destruct d; reflexivity. Qed.

Lemma rd_detached n d w r : rd (detached n d w) r = rd w r.
Proof. destruct d; reflexivity. Qed.

Lemma nd_detached_delegate n d w m :
  delegate (nd (detached n d w) m) = delegate (nd w m).
Proof.
  destruct d; [|reflexivity]. unfold detached, nd. simpl.
  now apply nth_upd_field.
Qed.

Lemma ui_nodes_detached n d w : ui_nodes (detached n d w) = ui_nodes w.
Proof. destruct d; reflexivity. Qed.

Lemma ui_cache_detached n d w : ui_cache (detached n d w) = ui_cache w.
Proof. destruct d; reflexivity. Qed.

Lemma pending_detached n d w : pending (detached n d w) = pending w.
Proof. destruct d; reflexivity. Qed.

Lemma children_detached n d w : children (detached n d w) = remove_id n (children w).
Proof. destruct d; reflexivity. Qed.

Lemma recs_detached n d w : recs (detached n d w) = recs w.
Proof. destruct d; reflexivity. Qed.

Lemma inv_detached n d w : inv w -> inv (detached n d w).
Proof.
  intros H. pose proof (Delegate_remove_inv n d w H) as Hd.
  now rewrite Delegate_remove_run in Hd.
Qed.

Lemma remove_loop_cons c rest path d w :
  remove_loop (c :: rest) path d w =
  match delegate (nd w c) with
  | None => Throw TypeError w
  | Some r =>
      if String.eqb (prefabPath (rd w r)) path
      then remove_loop rest path d (retired c r d w)
      else remove_loop rest path d w
  end.
Proof.
  simpl. run. destruct (delegate (nd w c)) as [r|]; [|reflexivity].
  destruct (String.eqb (prefabPath (rd w r)) path); [|reflexivity].
  destruct d; reflexivity.
Qed.

Lemma inv_retired c r d w :
  inv w -> delegate (nd w c) = Some r -> inv (retired c r d w).
Proof.
  intros Hw Hd. destruct (inv_delegate w Hw c r Hd) as [Hr Hn].
  unfold retired. apply inv_set_valid_false.
  - apply inv_detached. destruct d.
    + now apply inv_ui_nodes_delete.
    + now apply inv_ui_cache_set.
  - rewrite rd_detached. now destruct d.
Qed.

Lemma remove_loop_inv l path d : keeps inv (remove_loop l path d).
Proof.
  induction l as [|c rest IH]; intros w Hw.
  - exact Hw.
  - rewrite remove_loop_cons.
    destruct (delegate (nd w c)) as [r|] eqn:Ed; [|exact Hw].
    destruct (String.eqb (prefabPath (rd w r)) path).
    + apply IH. now apply inv_retired.
    + now apply IH.
Qed.

Lemma remove_inv path d : keeps inv (remove path d).
Proof.
  unfold remove. apply keeps_bind.
  - destruct d; [apply removeCache_inv | apply keeps_ret].
  - intros _. apply keeps_gets. intros l w [Hw _].
    now apply remove_loop_inv.
Qed.

Lemma forEach_hoare (P E : Layer -> Prop) entries present body :
  (forall w, P w -> E w) ->
  (forall key value, In (key, value) entries ->
     hoare (fun w => P w /\ present key w = true) (body value key)
           (fun _ => P) E) ->
  hoare P (forEach entries present body) (fun _ => P) E.
Proof.
  intros HPE. induction entries as [|[key value] rest IH]; intros Hb w Hw.
  - exact Hw.
  - simpl. run. destruct (present key w) eqn:Ep.
    + pose proof (Hb key value (or_introl eq_refl) w (conj Hw Ep)) as H1.
      destruct (body value key w) as [[] w1|e w1]; [|exact H1].
      apply IH; auto. intros k v Hin. apply Hb. now right.
    + apply IH; auto. intros k v Hin. apply Hb. now right.
Qed.

Lemma removeByUuid_run u d w r n r' :
  JsMap.get u (ui_nodes w) = Some r -> node (rd w r) = Some n ->
  delegate (nd w n) = Some r' ->
  removeByUuid u d w =
  Done tt (detached n d
             (if d then with_ui_nodes (JsMap.delete (uuid (rd w r))) w else w)).
Proof.
  intros Hg Hn Hd. unfold removeByUuid. run. rewrite Hg.
  destruct d; run; unfold rd, nd in *; simpl; rewrite Hn; run;
    unfold nd; simpl; rewrite Hd; reflexivity.
Qed.

Lemma removeByUuid_throw u d w r :
  JsMap.get u (ui_nodes w) = Some r -> node (rd w r) = None ->
  removeByUuid u d w =
  Throw TypeError
        (if d then with_ui_nodes (JsMap.delete (uuid (rd w r))) w else w).
Proof.
  intros Hg Hn. unfold removeByUuid. run. rewrite Hg.
  destruct d; run; unfold rd in *; simpl; rewrite Hn; reflexivity.
Qed.

Lemma clear_turn_inv snapshot d key value :
  NoDup (JsMap.keys snapshot) -> In (key, value) snapshot ->
  hoare (fun w => (inv w /\ within snapshot w) /\ JsMap.has key (ui_nodes w) = true)
        (u <- gets (fun w => uuid (rd w value)) ;;
         removeByUuid u d ;;
         assign value (set_valid false))
        (fun _ w => inv w /\ within snapshot w) inv.
Proof.
  intros Hnd Hin w [[Hw Hsub] Hlive]. run.
  apply has_get in Hlive. destruct Hlive as [v Hv].
  pose proof (Hsub _ _ Hv) as Hs. rewrite (in_get _ _ _ Hnd Hin) in Hs.
  injection Hs as <-.
  destruct (inv_active w Hw _ _ Hv) as [Hr Hu]. rewrite Hu.
  destruct (node (rd w value)) as [n|] eqn:En.
  - rewrite (removeByUuid_run key d w value n value Hv En
               (inv_node_delegate w value n Hw En)).
    rewrite Hu.
    set (w0 := if d then with_ui_nodes (JsMap.delete key) w else w).
    assert (H0 : inv w0) by (destruct d; [now apply inv_ui_nodes_delete | auto]).
    assert (Hn0 : node (rd w0 value) = Some n) by (now destruct d).
    split.
    + apply inv_set_valid_false; [now apply inv_detached|].
      rewrite rd_detached. congruence.
    + intros k v Hg. simpl in Hg. rewrite ui_nodes_detached in Hg.
      apply Hsub. destruct d; auto. simpl in Hg.
      apply get_delete_some in Hg; auto. apply (inv_active_keys w Hw).
  - rewrite (removeByUuid_throw key d w value Hv En).
    destruct d; auto. now apply inv_ui_nodes_delete.
Qed.

Lemma clear_inv d : keeps inv (clear d).
Proof.
  unfold clear. apply keeps_gets. intros snapshot.
  eapply hoare_bind with (R := fun _ => inv).
  - eapply hoare_weaken with (P' := fun w => inv w /\ within snapshot w
                                            /\ NoDup (JsMap.keys snapshot))
                             (Q' := fun _ w => inv w /\ within snapshot w
                                            /\ NoDup (JsMap.keys snapshot))
                             (E' := inv).
    + apply forEach_hoare.
      * tauto.
      * intros key value Hin w [(Hw & Hsub & Hnd) Hlive].
        pose proof (clear_turn_inv snapshot d key value Hnd Hin w
                      (conj (conj Hw Hsub) Hlive)) as H.
        match type of H with
        | match ?m with Done _ _ => _ | Throw _ _ => _ end => destruct m
        end; tauto.
    + intros w [Hw <-]. split; [exact Hw|].
      split; [now intros k v | apply (inv_active_keys w Hw)].
    + tauto.
    + auto.
  - intros _. eapply hoare_bind with (R := fun _ => inv).
    + apply keeps_modify. apply inv_ui_nodes_clear.
    + intros _. destruct d; [|apply keeps_ret].
      apply keeps_gets. intros cached.
      eapply hoare_weaken with (P' := inv) (Q' := fun _ => inv) (E' := inv);
        auto; [|tauto].
      apply forEach_hoare; auto.
      intros key value _ w [Hw _]. now apply removeCache_inv.
Qed.

Theorem reachable_inv w : reachable w -> inv w.
Proof.
  induction 1 as [layerName defaultBundle | w w' _ IH Hstep].
  - apply inv_new.
  - destruct Hstep.
    + now apply keeps_final; [apply add_inv|].
    + now apply keeps_final; [apply resolve_inv|].
    + now apply keeps_final; [apply remove_inv|].
    + now apply keeps_final; [apply removeByUuid_inv|].
    + now apply keeps_final; [apply clear_inv|].
Qed.

(** ** Detaching and invalidating only *)

Lemma fades_refl w : fades w w.
Proof. constructor; auto. Qed.

Lemma fades_trans w1 w2 w3 : fades w1 w2 -> fades w2 w3 -> fades w1 w3.
Proof.
  intros [A1 A2 A3 A4 A5 A6 A7 A8 A9 A10 A11 A12]
         [B1 B2 B3 B4 B5 B6 B7 B8 B9 B10 B11 B12].
  constructor; intros; try congruence; auto.
Qed.

Lemma fades_with_log e w : fades w (with_log (fun l => l ++ [e]) w).
Proof.
  constructor; auto. intros e' H. simpl. apply in_app_iff. now left.
Qed.

Lemma fades_with_ui_nodes f w : fades w (with_ui_nodes f w).
Proof. constructor; auto. Qed.

Lemma fades_with_ui_cache f w : fades w (with_ui_cache f w).
Proof. constructor; auto. Qed.

Lemma fades_detached n d w : fades w (detached n d w).
Proof.
  constructor; try (destruct d; reflexivity).
  - destruct d; simpl; auto. now rewrite length_upd.
  - intros r. now rewrite rd_detached.
  - intros m. apply nd_detached_delegate.
  - intros m. destruct d; auto. unfold detached, nd. simpl.
    destruct (Nat.eq_dec n m) as [->|Hne].
    + destruct (Nat.lt_ge_cases m (length (nodes w))) as [Hlt|Hge].
      * rewrite nth_upd_eq by auto. discriminate.
      * rewrite nth_overflow by (now rewrite length_upd). discriminate.
    + now rewrite nth_upd_ne.
  - intros c. rewrite children_detached, In_remove_id. tauto.
  - intros e H. destruct d; simpl; apply in_app_iff; now left.
Qed.

Lemma valid_set_false r w r' :
  valid (rd (with_recs (upd r (set_valid false)) w) r') = true ->
  valid (rd w r') = true /\ r' <> r.
Proof.
  intros H. destruct (Nat.eq_dec r r') as [->|Hne].
  - exfalso. destruct (Nat.lt_ge_cases r' (length (recs w))) as [Hlt|Hge].
    + rewrite rd_with_recs_upd_eq in H by auto. discriminate.
    + rewrite rd_beyond in H; [discriminate|]. simpl. now rewrite length_upd.
  - rewrite rd_with_recs_upd_ne in H by auto. auto.
Qed.

Lemma fades_set_valid_false r w : fades w (with_recs (upd r (set_valid false)) w).
Proof.
  constructor; auto.
  - simpl. now rewrite length_upd.
  - intros r'. now apply (rd_with_recs_upd_field uuid).
  - intros r'. now apply (rd_with_recs_upd_field prefabPath).
  - intros r'. now apply (rd_with_recs_upd_field node).
  - intros r' H. now apply valid_set_false in H.
Qed.

Lemma fades_retired c r d w : fades w (retired c r d w).
Proof.
  unfold retired.
  eapply fades_trans; [|apply fades_set_valid_false].
  eapply fades_trans; [|apply fades_detached].
  destruct d; [apply fades_with_ui_nodes | apply fades_with_ui_cache].
Qed.

Lemma fades_evicted path r n w : fades w (evicted path r n w).
Proof.
  unfold evicted.
  eapply fades_trans; [|apply fades_with_ui_cache].
  eapply fades_trans; [|apply fades_with_ui_nodes].
  apply fades_detached.
Qed.

Lemma fades_swept l path d w : fades w (swept l path d w).
Proof.
  revert w. induction l as [|c rest IH]; intros w; simpl.
  - apply fades_refl.
  - destruct (delegate (nd w c)) as [r|]; auto.
    destruct (String.eqb (prefabPath (rd w r)) path); auto.
    eapply fades_trans; [apply fades_retired | apply IH].
Qed.

Lemma fades_shown w w' c : fades w w' -> shown w' c = true -> shown w c = true.
Proof.
  intros F. unfold shown. rewrite (fd_delegate w w' F).
  destruct (delegate (nd w c)) as [r|]; auto.
  intros H. apply andb_true_iff in H. destruct H as [Hv Ha].
  apply andb_true_iff. split.
  - now apply (fd_valid w w' F).
  - now apply (fd_alive w w' F).
Qed.

Lemma fades_nodes_incl w w' c : fades w w' -> In c (__nodes w') -> In c (__nodes w).
Proof.
  intros F H. unfold __nodes in *. apply filter_In in H. destruct H as [Hc Hs].
  apply filter_In. split.
  - now apply (fd_children w w' F).
  - now apply (fades_shown w w' c F).
Qed.

Lemma shown_delegate w c : shown w c = true ->
  exists r, delegate (nd w c) = Some r /\ valid (rd w r) = true /\ alive (nd w c) = true.
Proof.
  unfold shown. destruct (delegate (nd w c)) as [r|]; [|discriminate].
  intros H. apply andb_true_iff in H. exists r. tauto.
Qed.

(** ** The outcome of each operation, written down *)

Lemma remove_loop_run l path d w :
  (forall c, In c l -> delegate (nd w c) <> None) ->
  remove_loop l path d w = Done tt (swept l path d w).
Proof.
  revert w. induction l as [|c rest IH]; intros w Hl.
  - reflexivity.
  - rewrite remove_loop_cons. simpl.
    destruct (delegate (nd w c)) as [r|] eqn:Ed.
    + destruct (String.eqb (prefabPath (rd w r)) path).
      * apply IH. intros c' Hc'.
        rewrite (fd_delegate _ _ (fades_retired c r d w)). apply Hl. now right.
      * apply IH. intros c' Hc'. apply Hl. now right.
    + exfalso. apply (Hl c); auto. now left.
Qed.

Lemma remove_keep_run path w :
  remove path false w = Done tt (swept (__nodes w) path false w).
Proof.
  unfold remove. run. apply remove_loop_run.
  intros c Hc. apply filter_In in Hc. destruct Hc as [_ Hs].
  apply shown_delegate in Hs. destruct Hs as (r & -> & _). discriminate.
Qed.

Lemma removeCache_none path w :
  JsMap.get path (ui_cache w) = None -> removeCache path w = Done tt w.
Proof. intros H. unfold removeCache. run. now rewrite H. Qed.

Lemma removeCache_run path w r n r' :
  JsMap.get path (ui_cache w) = Some r -> node (rd w r) = Some n ->
  delegate (nd w n) = Some r' ->
  removeCache path w = Done tt (evicted path r n w).
Proof.
  intros Hg Hn Hd. unfold removeCache. run. rewrite Hg, Hn, Hd.
  reflexivity.
Qed.

Lemma remove_destroy_run path w w1 :
  removeCache path w = Done tt w1 ->
  remove path true w = Done tt (swept (__nodes w1) path true w1).
Proof.
  intros H. unfold remove. run. rewrite H. apply remove_loop_run.
  intros c Hc. apply filter_In in Hc. destruct Hc as [_ Hs].
  apply shown_delegate in Hs. destruct Hs as (r & -> & _). discriminate.
Qed.

Lemma createNode_run r n r' w :
  node (rd w r) = Some n -> delegate (nd w n) = Some r' ->
  createNode r w = Done n (attached r n w).
Proof.
  intros Hn Hd. unfold createNode. run.
  rewrite (rd_with_recs_upd_field node) by auto. rewrite Hn.
  change (nd (with_recs (upd r (set_valid true)) w) n) with (nd w n).
  now rewrite Hd.
Qed.

Lemma load_fast_run r b n r' w :
  JsMap.get (uuid (rd w r)) (ui_nodes w) = Some r ->
  node (rd w r) = Some n -> delegate (nd w n) = Some r' ->
  load r b w = Done tt (attached r n w).
Proof.
  intros Hg Hn Hd. unfold load. run. rewrite Hg, Hn.
  now rewrite (createNode_run r n r' w Hn Hd).
Qed.

Lemma load_request_run r b w :
  JsMap.get (uuid (rd w r)) (ui_nodes w) = Some r ->
  node (rd w r) = None ->
  load r b w = Done tt (requested r b w).
Proof. intros Hg Hn. unfold load. run. now rewrite Hg, Hn. Qed.

Lemma add_rejected config p c w r :
  JsMap.get (getUuid (name w) (prefab config)) (ui_nodes w) = Some r ->
  valid (rd w r) = true ->
  add config p c w = Done "" (with_log (fun l => l ++ [Warn (prefab config)]) w).
Proof. intros Hg Hv. unfold add. run. now rewrite Hg, Hv. Qed.

Lemma add_reuse config p c w r :
  JsMap.get (getUuid (name w) (prefab config)) (ui_nodes w) = Some r ->
  valid (rd w r) = false ->
  add config p c w =
  match load r (bundle config) (claim r p c w) with
  | Done _ w' => Done (getUuid (name w) (prefab config)) w'
  | Throw e w' => Throw e w'
  end.
Proof. intros Hg Hv. unfold add. run. now rewrite Hg, Hv. Qed.

Lemma add_new config p c w :
  JsMap.get (getUuid (name w) (prefab config)) (ui_nodes w) = None ->
  add config p c w =
  match
    load (length (recs w)) (bundle config)
      (claim (length (recs w)) p c
         (with_ui_nodes (JsMap.set (getUuid (name w) (prefab config)) (length (recs w)))
            (with_recs (fun l => l ++ [mkViewParams (getUuid (name w) (prefab config))
                                        (prefab config) None EmptyObject EmptyObject true])
               w)))
  with
  | Done _ w' => Done (getUuid (name w) (prefab config)) w'
  | Throw e w' => Throw e w'
  end.
Proof. intros Hg. unfold add. run. now rewrite Hg. Qed.

Lemma resolve_node_run k rq w :
  nth_error (pending w) k = Some rq ->
  resolve k None InstNode w =
  match createNode (req_viewParams rq)
          (bind_visual (req_viewParams rq) (with_pending (remove_nth k) w)) with
  | Done _ w' => Done tt w'
  | Throw e w' => Throw e w'
  end.
Proof. intros H. unfold resolve. run. rewrite H. reflexivity. Qed.

(** ** What the loop of [remove] achieves *)

Lemma valid_retired c r d w : valid (rd (retired c r d w) r) = false.
Proof.
  destruct (valid (rd (retired c r d w) r)) eqn:E; auto.
  unfold retired in E. apply valid_set_false in E. tauto.
Qed.

Lemma fades_invalid w w' r : fades w w' -> valid (rd w r) = false -> valid (rd w' r) = false.
Proof.
  intros F H. destruct (valid (rd w' r)) eqn:E; auto.
  apply (fd_valid w w' F) in E. congruence.
Qed.

Lemma swept_invalidates l path d w c r :
  In c l -> delegate (nd w c) = Some r -> prefabPath (rd w r) = path ->
  valid (rd (swept l path d w) r) = false.
Proof.
  revert w. induction l as [|a rest IH]; intros w Hin Hd Hp; [destruct Hin|].
  simpl. destruct Hin as [->|Hin].
  - rewrite Hd, Hp, String.eqb_refl.
    eapply fades_invalid; [apply fades_swept | apply valid_retired].
  - destruct (delegate (nd w a)) as [r1|]; auto.
    destruct (String.eqb (prefabPath (rd w r1)) path); auto.
    pose proof (fades_retired a r1 d w) as F.
    apply IH; auto.
    + now rewrite (fd_delegate _ _ F).
    + now rewrite (fd_path _ _ F).
Qed.

Lemma ui_nodes_swept_keep l path w : ui_nodes (swept l path false w) = ui_nodes w.
Proof.
  revert w. induction l as [|a rest IH]; intros w; simpl; auto.
  destruct (delegate (nd w a)) as [r1|]; auto.
  destruct (String.eqb (prefabPath (rd w r1)) path); auto.
  now rewrite IH.
Qed.

Lemma ui_cache_swept_destroy l path w : ui_cache (swept l path true w) = ui_cache w.
Proof.
  revert w. induction l as [|a rest IH]; intros w; simpl; auto.
  destruct (delegate (nd w a)) as [r1|]; auto.
  destruct (String.eqb (prefabPath (rd w r1)) path); auto.
  now rewrite IH.
Qed.

Lemma ui_nodes_swept_shrinks l path d w :
  NoDup (JsMap.keys (ui_nodes w)) ->
  NoDup (JsMap.keys (ui_nodes (swept l path d w)))
  /\ forall k v, JsMap.get k (ui_nodes (swept l path d w)) = Some v ->
                 JsMap.get k (ui_nodes w) = Some v.
Proof.
  revert w. induction l as [|a rest IH]; intros w Hnd; simpl; auto.
  destruct (delegate (nd w a)) as [r1|]; auto.
  destruct (String.eqb (prefabPath (rd w r1)) path); auto.
  destruct d.
  - destruct (IH (retired a r1 true w)) as [H1 H2].
    + simpl. now apply NoDup_delete.
    + split; auto. intros k v Hg. apply H2 in Hg. simpl in Hg.
      eapply get_delete_some; eauto.
  - apply (IH (retired a r1 false w)). exact Hnd.
Qed.

Lemma swept_deletes l path w c r :
  NoDup (JsMap.keys (ui_nodes w)) ->
  In c l -> delegate (nd w c) = Some r -> prefabPath (rd w r) = path ->
  JsMap.get (uuid (rd w r)) (ui_nodes (swept l path true w)) = None.
Proof.
  revert w. induction l as [|a rest IH]; intros w Hnd Hin Hd Hp; [destruct Hin|].
  simpl. destruct Hin as [->|Hin].
  - rewrite Hd, Hp, String.eqb_refl.
    destruct (ui_nodes_swept_shrinks rest path true (retired c r true w)) as [_ H2].
    { simpl. now apply NoDup_delete. }
    destruct (JsMap.get _ (ui_nodes (swept _ _ _ _))) as [v|] eqn:E; auto.
    apply H2 in E. simpl in E. rewrite get_delete_eq in E; auto.
  - destruct (delegate (nd w a)) as [r1|]; auto.
    destruct (String.eqb (prefabPath (rd w r1)) path); auto.
    pose proof (fades_retired a r1 true w) as F.
    rewrite <- (fd_uuid _ _ F r). apply IH; auto.
    + simpl. now apply NoDup_delete.
    + now rewrite (fd_delegate _ _ F).
    + now rewrite (fd_path _ _ F).
Qed.

Lemma ui_cache_swept_other l path w p :
  p <> path ->
  JsMap.get p (ui_cache (swept l path false w)) = JsMap.get p (ui_cache w).
Proof.
  intros Hp. revert w. induction l as [|a rest IH]; intros w; simpl; auto.
  destruct (delegate (nd w a)) as [r1|]; auto.
  destruct (String.eqb (prefabPath (rd w r1)) path) eqn:E; auto.
  rewrite IH. simpl. apply String.eqb_eq in E. rewrite E.
  apply get_set_ne. congruence.
Qed.

Lemma swept_app l1 l2 path d w :
  swept (l1 ++ l2) path d w = swept l2 path d (swept l1 path d w).
Proof.
  revert w. induction l1 as [|a rest IH]; intros w; simpl; auto.
  destruct (delegate (nd w a)) as [r1|]; auto.
  destruct (String.eqb (prefabPath (rd w r1)) path); auto.
Qed.

(** The cache entry of the path is the record of the last delegate the
    loop kept. *)
Lemma ui_cache_swept_last l c r path w :
  delegate (nd w c) = Some r -> prefabPath (rd w r) = path ->
  JsMap.get path (ui_cache (swept (l ++ [c]) path false w)) = Some r.
Proof.
  intros Hd Hp. rewrite swept_app.
  pose proof (fades_swept l path false w) as F. simpl.
  rewrite (fd_delegate _ _ F), Hd, (fd_path _ _ F), Hp, String.eqb_refl.
  simpl. rewrite (fd_path _ _ F), Hp. apply get_set_eq.
Qed.

(** After [remove], no delegate of the path is left among the shown ones. *)
Lemma sweep_leaves path d w c r :
  In c (__nodes (swept (__nodes w) path d w)) ->
  delegate (nd w c) = Some r ->
  In c (__nodes w) /\ prefabPath (rd w r) <> path.
Proof.
  intros Hin Hd. pose proof (fades_swept (__nodes w) path d w) as F.
  assert (Hc : In c (__nodes w)) by (eapply fades_nodes_incl; eauto).
  split; auto. intros Hp.
  apply filter_In in Hin. destruct Hin as [_ Hs].
  apply shown_delegate in Hs. destruct Hs as (r' & Hd' & Hv & _).
  rewrite (fd_delegate _ _ F), Hd in Hd'. injection Hd' as <-.
  rewrite (swept_invalidates (__nodes w) path d w c r) in Hv; auto.
  discriminate.
Qed.

Lemma get_after_sweep path d w : get path (swept (__nodes w) path d w) = [].
Proof.
  pose proof (fades_swept (__nodes w) path d w) as F.
  unfold get.
  destruct (filter _ _) as [|c rest] eqn:E; auto.
  assert (Hc : In c (c :: rest)) by now left.
  rewrite <- E in Hc. apply filter_In in Hc. destruct Hc as [Hin Hm].
  destruct (delegate (nd _ c)) as [r|] eqn:Ed; [|discriminate].
  rewrite (fd_delegate _ _ F) in Ed.
  destruct (sweep_leaves path d w c r Hin Ed) as [_ Hne].
  apply String.eqb_eq in Hm. rewrite (fd_path _ _ F) in Hm. contradiction.
Qed.

Lemma has_true q w :
  has q w = true <->
  exists c r, In c (__nodes w) /\ delegate (nd w c) = Some r
              /\ (uuid (rd w r) = q \/ prefabPath (rd w r) = q).
Proof.
  unfold has. rewrite existsb_exists. split.
  - intros (c & Hin & Hm). destruct (delegate (nd w c)) as [r|] eqn:Ed;
      [|discriminate].
    exists c, r. repeat split; auto.
    apply orb_true_iff in Hm. now rewrite !String.eqb_eq in Hm.
  - intros (c & r & Hin & Hd & Hm). exists c. split; auto.
    rewrite Hd. apply orb_true_iff. now rewrite !String.eqb_eq.
Qed.

Lemma has_false q w :
  has q w = false ->
  forall c r, In c (__nodes w) -> delegate (nd w c) = Some r ->
              uuid (rd w r) <> q /\ prefabPath (rd w r) <> q.
Proof.
  intros H c r Hin Hd.
  assert (Hn : ~ (has q w = true)) by congruence.
  rewrite has_true in Hn.
  split; intros Heq; apply Hn; exists c, r; auto.
Qed.

(** What [has] can still find after [remove]: only a shown delegate of
    another path whose identifier is the string asked for. *)
Lemma has_after_sweep q path d w :
  has q (swept (__nodes w) path d w) = true ->
  exists c r, In c (__nodes w) /\ delegate (nd w c) = Some r
              /\ prefabPath (rd w r) <> path
              /\ (uuid (rd w r) = q \/ prefabPath (rd w r) = q).
Proof.
  pose proof (fades_swept (__nodes w) path d w) as F.
  rewrite has_true. intros (c & r & Hin & Hd & Hm).
  rewrite (fd_delegate _ _ F) in Hd.
  rewrite (fd_uuid _ _ F), (fd_path _ _ F) in Hm.
  destruct (sweep_leaves path d w c r Hin Hd) as [Hc Hne].
  exists c, r. auto.
Qed.

(** ** A new path, added and loaded *)

Lemma rd_attached r n w r' :
  rd (attached r n w) r' = rd (with_recs (upd r (set_valid true)) w) r'.
Proof. unfold attached, set_parent. now destruct (existsb _ _). Qed.

Lemma nd_attached r n w m : nd (attached r n w) m = nd w m.
Proof. unfold attached, set_parent. now destruct (existsb _ _). Qed.

Lemma ui_nodes_attached r n w : ui_nodes (attached r n w) = ui_nodes w.
Proof. unfold attached, set_parent. now destruct (existsb _ _). Qed.

Lemma ui_cache_attached r n w : ui_cache (attached r n w) = ui_cache w.
Proof. unfold attached, set_parent. now destruct (existsb _ _). Qed.

Lemma pending_attached r n w : pending (attached r n w) = pending w.
Proof. unfold attached, set_parent. now destruct (existsb _ _). Qed.

Lemma nodes_attached r n w : nodes (attached r n w) = nodes w.
Proof. unfold attached, set_parent. now destruct (existsb _ _). Qed.

Lemma name_attached r n w : name (attached r n w) = name w.
Proof. unfold attached, set_parent. now destruct (existsb _ _). Qed.

Lemma log_attached r n w : log (attached r n w) = log w ++ [OnAdded n].
Proof. unfold attached, set_parent. now destruct (existsb _ _). Qed.

Lemma existsb_eqb_In n l : existsb (Nat.eqb n) l = true <-> In n l.
Proof.
  rewrite existsb_exists. split.
  - intros (x & Hin & Heq). apply Nat.eqb_eq in Heq. now subst.
  - intros H. exists n. split; auto. apply Nat.eqb_refl.
Qed.

Lemma children_attached_in r n w : In n (children (attached r n w)).
Proof.
  unfold attached, set_parent.
  destruct (existsb _ _) eqn:E; simpl in *.
  - now apply existsb_eqb_In.
  - apply in_app_iff. right. now left.
Qed.

Lemma children_attached_new r n w :
  ~ In n (children w) -> children (attached r n w) = children w ++ [n].
Proof.
  intros H. unfold attached, set_parent.
  destruct (existsb _ _) eqn:E; simpl in *; auto.
  apply existsb_eqb_In in E. contradiction.
Qed.

Lemma remove_nth_last {A} (l : list A) x : remove_nth (length l) (l ++ [x]) = l.
Proof.
  unfold remove_nth. induction l as [|a l IH]; [reflexivity|].
  change (a :: (firstn (length l) (l ++ [x]) ++ skipn (S (length l)) (l ++ [x]))
          = a :: l).
  now rewrite IH.
Qed.

Lemma nth_error_last {A} (l : list A) x : nth_error (l ++ [x]) (length l) = Some x.
Proof. rewrite nth_error_app2, Nat.sub_diag; auto. Qed.

Section NewPath.
Variables (config : UIConfig) (p c : option Payload) (w : Layer).
Hypothesis Hinv : inv w.

Let id := getUuid (name w) (prefab config).
Let r0 := length (recs w).
Let n0 := length (nodes w).
Let x := mkViewParams id (prefab config) None EmptyObject EmptyObject true.
Let w0 := with_ui_nodes (JsMap.set id r0) (with_recs (fun l => l ++ [x]) w).

Lemma rd_claimed_new :
  rd (claim r0 p c w0) r0
  = mkViewParams id (prefab config) None (or_empty p) (or_empty c) true.
Proof.
  unfold claim.
  rewrite !rd_with_recs_upd_eq;
    try (simpl; rewrite ?length_upd, length_app; simpl; subst r0; lia).
  change (rd w0 r0) with (rd (with_recs (fun l => l ++ [x]) w) (length (recs w))).
  now rewrite rd_snoc_new.
Qed.

Lemma add_new_run :
  JsMap.get id (ui_nodes w) = None ->
  add config p c w = Done id (added config p c w).
Proof.
  intros Hg. rewrite add_new by exact Hg.
  fold id r0 x w0. rewrite load_request_run.
  - reflexivity.
  - rewrite rd_claimed_new. simpl. apply get_set_eq.
  - now rewrite rd_claimed_new.
Qed.

Lemma rd_added_new :
  rd (added config p c w) r0
  = mkViewParams id (prefab config) None (or_empty p) (or_empty c) true.
Proof. exact rd_claimed_new. Qed.

Lemma pending_added :
  pending (added config p c w)
  = pending w ++ [mkRequest r0 (bundle_or (bundle config) (defaultBundleName w))
                    (prefab config)].
Proof.
  unfold added, requested. fold id r0 x w0. simpl pending at 1.
  rewrite rd_claimed_new. reflexivity.
Qed.

Let w1 := with_pending (remove_nth (length (pending w))) (added config p c w).

Lemma rd_w1 r : rd w1 r = rd (claim r0 p c w0) r.
Proof. reflexivity. Qed.

Lemma length_recs_w1 : length (recs w1) = S r0.
Proof.
  change (recs w1) with (recs (claim r0 p c w0)).
  rewrite length_recs_claim. simpl. rewrite length_app. simpl.
  subst r0. lia.
Qed.

Lemma nodes_w1 : nodes w1 = nodes w.
Proof. reflexivity. Qed.

Lemma resolve_displayed_run :
  resolve (length (pending w)) None InstNode (added config p c w)
  = Done tt (displayed config p c w).
Proof.
  assert (Hk : nth_error (pending (added config p c w)) (length (pending w))
               = Some (mkRequest r0 (bundle_or (bundle config) (defaultBundleName w))
                    (prefab config))).
  { rewrite pending_added. apply nth_error_last. }
  rewrite (resolve_node_run _ _ _ Hk).
  cbn [req_viewParams].
  change (with_pending _ (added config p c w)) with w1.
  rewrite (createNode_run r0 n0 r0).
  - cbv beta iota. unfold displayed, w1, r0, n0. reflexivity.
  - rewrite rd_bind_visual_eq by (rewrite length_recs_w1; lia).
    cbn [node set_node]. now rewrite nodes_w1.
  - replace n0 with (length (nodes w1)) by (now rewrite nodes_w1).
    now rewrite nd_bind_visual_new.
Qed.

Lemma rd_displayed_new :
  rd (displayed config p c w) r0
  = mkViewParams id (prefab config) (Some n0) (or_empty p) (or_empty c) true.
Proof.
  unfold displayed. fold r0 w1. rewrite rd_attached.
  rewrite rd_with_recs_upd_eq
    by (rewrite length_recs_bind_visual, length_recs_w1; lia).
  rewrite rd_bind_visual_eq by (rewrite length_recs_w1; lia).
  rewrite rd_w1, rd_claimed_new. reflexivity.
Qed.

Lemma rd_displayed_old r : r <> r0 -> rd (displayed config p c w) r = rd w r.
Proof.
  intros Hr. unfold displayed. fold r0 w1. rewrite rd_attached.
  rewrite rd_with_recs_upd_ne by auto.
  rewrite rd_bind_visual_ne by auto.
  rewrite rd_w1, rd_claim_ne by auto.
  change (rd w0 r) with (rd (with_recs (fun l => l ++ [x]) w) r).
  destruct (Nat.lt_ge_cases r (length (recs w))) as [Hlt|Hge].
  - now apply rd_snoc_old.
  - rewrite !rd_beyond; auto. simpl. rewrite length_app. simpl.
    subst r0. lia.
Qed.

Lemma nd_displayed_new : nd (displayed config p c w) n0 = mkNodeObj (Some r0) true.
Proof.
  unfold displayed. fold r0 w1. rewrite nd_attached.
  change (length (nodes w)) with (length (nodes w1)).
  apply nd_bind_visual_new.
Qed.

Lemma nd_displayed_old m : m <> n0 -> nd (displayed config p c w) m = nd w m.
Proof.
  intros Hm. unfold displayed. fold r0 w1. rewrite nd_attached.
  now rewrite nd_bind_visual_old.
Qed.

Lemma children_displayed : children (displayed config p c w) = children w ++ [n0].
Proof.
  unfold displayed. fold r0 n0 w1. rewrite children_attached_new; auto.
  intros Hin. apply (inv_children w Hinv) in Hin. subst n0. lia.
Qed.

Lemma ui_nodes_displayed :
  ui_nodes (displayed config p c w) = JsMap.set id r0 (ui_nodes w).
Proof. unfold displayed. now rewrite ui_nodes_attached. Qed.

Lemma ui_cache_displayed : ui_cache (displayed config p c w) = ui_cache w.
Proof. unfold displayed. now rewrite ui_cache_attached. Qed.

Lemma name_displayed : name (displayed config p c w) = name w.
Proof. unfold displayed. now rewrite name_attached. Qed.

Lemma pending_displayed : pending (displayed config p c w) = pending w.
Proof.
  unfold displayed. rewrite pending_attached.
  change (remove_nth (length (pending w)) (pending (added config p c w)) = pending w).
  rewrite pending_added. apply remove_nth_last.
Qed.

Lemma shown_displayed_old m : In m (children w) ->
  shown (displayed config p c w) m = shown w m.
Proof.
  intros Hin. apply (inv_children w Hinv) in Hin.
  unfold shown. rewrite nd_displayed_old by (subst n0; lia).
  destruct (delegate (nd w m)) as [r|] eqn:Ed; auto.
  destruct (inv_delegate w Hinv m r Ed) as [Hr _].
  rewrite rd_displayed_old by (subst r0; lia). reflexivity.
Qed.

Lemma shown_displayed_new : shown (displayed config p c w) n0 = true.
Proof.
  unfold shown. rewrite nd_displayed_new. simpl.
  now rewrite rd_displayed_new.
Qed.

Lemma __nodes_displayed : __nodes (displayed config p c w) = __nodes w ++ [n0].
Proof.
  unfold __nodes. rewrite children_displayed, filter_app. simpl.
  rewrite shown_displayed_new. f_equal.
  apply filter_ext_in. apply shown_displayed_old.
Qed.
End NewPath.

(** ** The identifier *)

Lemma replace_slash_rewrite s : replace_all "/"%char "_" s = rewrite_separators s.
Proof.
  induction s as [|a s IH]; simpl; auto.
  destruct (Ascii.eqb a "/"%char); simpl; now rewrite IH.
Qed.

Lemma rewrite_separators_clean s : occurs "/"%char (rewrite_separators s) = false.
Proof.
  induction s as [|a s IH]; simpl; auto.
  rewrite IH, orb_false_r.
  destruct (Ascii.eqb a "/"%char) eqn:E; auto.
Qed.

Lemma rewrite_separators_length s : String.length (rewrite_separators s) = String.length s.
Proof. induction s as [|a s IH]; simpl; auto. Qed.

Lemma length_append s t :
  String.length (s ++ t)%string = String.length s + String.length t.
Proof. induction s as [|a s IH]; simpl; auto. Qed.

Lemma getUuid_length layerName path :
  String.length (getUuid layerName path)
  = String.length layerName + 1 + String.length path.
Proof.
  unfold getUuid. rewrite replace_slash_rewrite, rewrite_separators_length.
  rewrite length_append. simpl. lia.
Qed.

(** No identifier of a layer is one of the paths it was made from. *)
Lemma getUuid_not_path layerName path : getUuid layerName path <> path.
Proof.
  intros H. apply (f_equal String.length) in H.
  rewrite getUuid_length in H. lia.
Qed.

(** ** [add], whatever the state *)

Lemma rd_requested r b w r' : rd (requested r b w) r' = rd w r'.
Proof. reflexivity. Qed.

Lemma ui_nodes_requested r b w : ui_nodes (requested r b w) = ui_nodes w.
Proof. reflexivity. Qed.

Lemma name_requested r b w : name (requested r b w) = name w.
Proof. reflexivity. Qed.

Lemma ui_nodes_claim r p c w : ui_nodes (claim r p c w) = ui_nodes w.
Proof. reflexivity. Qed.

Lemma name_claim r p c w : name (claim r p c w) = name w.
Proof. reflexivity. Qed.

Lemma nd_claim r p c w n : nd (claim r p c w) n = nd w n.
Proof. reflexivity. Qed.

Lemma pending_requested_last r b w :
  In (mkRequest r (bundle_or b (defaultBundleName w)) (prefabPath (rd w r)))
     (pending (requested r b w)).
Proof. unfold requested. simpl. apply in_app_iff. right. now left. Qed.

Lemma valid_attached r n w : r < length (recs w) -> valid (rd (attached r n w) r) = true.
Proof. intros H. rewrite rd_attached, rd_with_recs_upd_eq; auto. Qed.

Lemma node_attached r n w r' : node (rd (attached r n w) r') = node (rd w r').
Proof. rewrite rd_attached. now apply (rd_with_recs_upd_field node). Qed.

(** Every call of [add] on a well-formed layer returns; afterwards a
    valid record sits under the identifier.  The call returns the empty
    string exactly when such a record was there before, and then only the
    warning is new. *)
Lemma add_outcome w config p c :
  inv w ->
  exists u w1 r,
    add config p c w = Done u w1
    /\ JsMap.get (getUuid (name w) (prefab config)) (ui_nodes w1) = Some r
    /\ valid (rd w1 r) = true
    /\ name w1 = name w
    /\ ((u = "" /\ w1 = with_log (fun l => l ++ [Warn (prefab config)]) w
         /\ exists r0, JsMap.get (getUuid (name w) (prefab config)) (ui_nodes w) = Some r0
                       /\ valid (rd w r0) = true)
        \/ (u = getUuid (name w) (prefab config)
            /\ (node (rd w1 r) = None ->
                exists rq, In rq (pending w1) /\ req_viewParams rq = r))).
Proof.
  intros Hw.
  destruct (JsMap.get (getUuid (name w) (prefab config)) (ui_nodes w)) as [r|] eqn:Eg.
  - destruct (inv_active w Hw _ _ Eg) as [Hr Hu].
    destruct (valid (rd w r)) eqn:Ev.
    + exists "", (with_log (fun l => l ++ [Warn (prefab config)]) w), r.
      rewrite (add_rejected config p c w r Eg Ev).
      split; [reflexivity|]. split; [exact Eg|]. split; [exact Ev|].
      split; [reflexivity|]. left. split; [reflexivity|]. split; [reflexivity|].
      exists r. auto.
    + rewrite (add_reuse config p c w r Eg Ev).
      assert (Hgc : JsMap.get (uuid (rd (claim r p c w) r)) (ui_nodes (claim r p c w))
                    = Some r).
      { rewrite (rd_claim_field uuid), ui_nodes_claim, Hu by auto. exact Eg. }
      destruct (node (rd w r)) as [n|] eqn:En.
      * assert (Hnc : node (rd (claim r p c w) r) = Some n)
          by (rewrite (rd_claim_field node) by auto; exact En).
        assert (Hdc : delegate (nd (claim r p c w) n) = Some r)
          by (rewrite nd_claim; now apply inv_node_delegate).
        rewrite (load_fast_run r (bundle config) n r _ Hgc Hnc Hdc).
        exists (getUuid (name w) (prefab config)), (attached r n (claim r p c w)), r.
        split; [reflexivity|].
        split; [rewrite ui_nodes_attached, ui_nodes_claim; exact Eg|].
        split; [apply valid_attached; now rewrite length_recs_claim|].
        split; [now rewrite name_attached|].
        right. split; [reflexivity|].
        rewrite node_attached, Hnc. discriminate.
      * assert (Hnc : node (rd (claim r p c w) r) = None)
          by (rewrite (rd_claim_field node) by auto; exact En).
        rewrite (load_request_run r (bundle config) _ Hgc Hnc).
        exists (getUuid (name w) (prefab config)),
               (requested r (bundle config) (claim r p c w)), r.
        split; [reflexivity|].
        split; [rewrite ui_nodes_requested, ui_nodes_claim; exact Eg|].
        split; [rewrite rd_requested; now apply valid_claim|].
        split; [reflexivity|].
        right. split; [reflexivity|]. intros _.
        eexists. split; [apply pending_requested_last | reflexivity].
  - rewrite (add_new_run config p c w Eg).
    exists (getUuid (name w) (prefab config)), (added config p c w), (length (recs w)).
    split; [reflexivity|].
    split; [apply get_set_eq|].
    split; [rewrite rd_added_new; reflexivity|].
    split; [reflexivity|].
    right. split; [reflexivity|]. intros _.
    eexists. split.
    + rewrite pending_added. apply in_app_iff. right. left. reflexivity.
    + reflexivity.
Qed.

(** ** Claims about [add] *)

(** C8.  [add] computes the identifier as the layer name joined to the
    path by an underscore, every path separator rewritten to an
    underscore, so that no separator is left in it; the layer "Dialog" and
    the path "ui/Confirm" give "Dialog_ui_Confirm".  Unless it rejects a
    duplicate, [add] returns this identifier at once: when it returns, a
    record that has no visual yet still has its load in flight. *)
Theorem add_returns_identifier w config p c :
  reachable w ->
  (forall r, JsMap.get (getUuid (name w) (prefab config)) (ui_nodes w) = Some r ->
             valid (rd w r) = false) ->
  getUuid (name w) (prefab config) = spec_identifier (name w) (prefab config)
  /\ occurs "/"%char (spec_identifier (name w) (prefab config)) = false
  /\ getUuid "Dialog" "ui/Confirm" = "Dialog_ui_Confirm"
  /\ exists w' r,
       add config p c w = Done (spec_identifier (name w) (prefab config)) w'
       /\ JsMap.get (spec_identifier (name w) (prefab config)) (ui_nodes w') = Some r
       /\ valid (rd w' r) = true
       /\ (node (rd w' r) = None ->
           exists rq, In rq (pending w') /\ req_viewParams rq = r).
Proof.
  intros Hreach Hfree.
  assert (Hid : getUuid (name w) (prefab config)
                = spec_identifier (name w) (prefab config))
    by apply replace_slash_rewrite.
  split; [exact Hid|].
  split; [apply rewrite_separators_clean|].
  split; [reflexivity|].
  destruct (add_outcome w config p c (reachable_inv w Hreach))
    as (u & w1 & r & Hadd & Hg & Hv & _ & Hcase).
  rewrite <- Hid. exists w1, r.
  destruct Hcase as [(_ & _ & r0 & Hg0 & Hv0) | (-> & Hreq)].
  - rewrite (Hfree r0 Hg0) in Hv0. discriminate.
  - auto.
Qed.

Lemma add_returns_identifier_witness :
  reachable Dialog
  /\ getUuid (name Dialog) (prefab Confirm) = "Dialog_ui_Confirm"
  /\ exists w' r,
       add Confirm None None Dialog = Done "Dialog_ui_Confirm" w'
       /\ JsMap.get "Dialog_ui_Confirm" (ui_nodes w') = Some r
       /\ valid (rd w' r) = true
       /\ (node (rd w' r) = None ->
           exists rq, In rq (pending w') /\ req_viewParams rq = r).
Proof.
  split; [apply reach_new|].
  pose proof (add_returns_identifier Dialog Confirm None None (reach_new _ _)) as H.
  destruct H as (H1 & _ & _ & H4).
  - intros r Hr. vm_compute in Hr. discriminate.
  - split; [exact H1 | exact H4].
Defined.

(** C3.  A second [add] of the same path, made before any load resolves,
    logs the duplicate-load warning and returns the empty string; it
    changes nothing else, requests no load, and the active mapping holds
    exactly one record under the identifier of the path. *)
Theorem second_add_rejected w config config' p c p' c' :
  reachable w -> prefab config' = prefab config ->
  exists u w1 w2,
    add config p c w = Done u w1
    /\ add config' p' c' w1 = Done "" w2
    /\ w2 = with_log (fun l => l ++ [Warn (prefab config)]) w1
    /\ pending w2 = pending w1
    /\ JsMap.count (getUuid (name w) (prefab config)) (ui_nodes w2) = 1.
Proof.
  intros Hreach Hsame.
  pose proof (reachable_inv w Hreach) as Hw.
  destruct (add_outcome w config p c Hw) as (u & w1 & r & Hadd & Hg & Hv & Hname & _).
  assert (Hw1 : inv w1).
  { pose proof (keeps_final inv (add config p c) w (add_inv config p c) Hw) as H.
    now rewrite Hadd in H. }
  exists u, w1, (with_log (fun l => l ++ [Warn (prefab config)]) w1).
  split; [exact Hadd|]. split.
  - rewrite <- Hsame. apply (add_rejected config' p' c' w1 r); auto.
    now rewrite Hname, Hsame.
  - split; [reflexivity|]. split; [reflexivity|].
    apply (count_present _ r); auto. apply (inv_active_keys w1 Hw1).
Qed.

Lemma second_add_rejected_witness :
  reachable Dialog /\ prefab Confirm = prefab Confirm
  /\ exists u w1 w2,
       add Confirm None None Dialog = Done u w1
       /\ add Confirm None None w1 = Done "" w2
       /\ w2 = with_log (fun l => l ++ [Warn (prefab Confirm)]) w1
       /\ pending w2 = pending w1
       /\ JsMap.count (getUuid (name Dialog) (prefab Confirm)) (ui_nodes w2) = 1.
Proof.
  split; [apply reach_new|]. split; [reflexivity|].
  apply (second_add_rejected Dialog Confirm Confirm None None None None
           (reach_new _ _) eq_refl).
Defined.

(** ** A view shown, then removed *)

Lemma retired_detaches c r d w : ~ In c (children (retired c r d w)).
Proof.
  unfold retired. simpl. rewrite children_detached. rewrite In_remove_id. tauto.
Qed.

Lemma retired_destroys c r w :
  c < length (nodes w) -> alive (nd (retired c r true w) c) = false.
Proof.
  intros H. unfold retired, detached, nd. simpl. now rewrite nth_upd_eq.
Qed.

Lemma fades_dead w w' n : fades w w' -> alive (nd w n) = false -> alive (nd w' n) = false.
Proof.
  intros F H. destruct (alive (nd w' n)) eqn:E; auto.
  apply (fd_alive w w' F) in E. congruence.
Qed.

Lemma swept_detaches l path d w c r :
  In c l -> delegate (nd w c) = Some r -> prefabPath (rd w r) = path ->
  ~ In c (children (swept l path d w)).
Proof.
  revert w. induction l as [|a rest IH]; intros w Hin Hd Hp; [destruct Hin|].
  simpl. destruct Hin as [->|Hin].
  - rewrite Hd, Hp, String.eqb_refl. intros H.
    apply (fd_children _ _ (fades_swept rest path d (retired c r d w))) in H.
    now apply retired_detaches in H.
  - destruct (delegate (nd w a)) as [r1|]; auto.
    destruct (String.eqb (prefabPath (rd w r1)) path); auto.
    pose proof (fades_retired a r1 d w) as F.
    apply IH; auto.
    + now rewrite (fd_delegate _ _ F).
    + now rewrite (fd_path _ _ F).
Qed.

Lemma swept_destroys l path w c r :
  c < length (nodes w) ->
  In c l -> delegate (nd w c) = Some r -> prefabPath (rd w r) = path ->
  alive (nd (swept l path true w) c) = false.
Proof.
  revert w. induction l as [|a rest IH]; intros w Hc Hin Hd Hp; [destruct Hin|].
  simpl. destruct Hin as [->|Hin].
  - rewrite Hd, Hp, String.eqb_refl.
    eapply fades_dead; [apply fades_swept | now apply retired_destroys].
  - destruct (delegate (nd w a)) as [r1|]; auto.
    destruct (String.eqb (prefabPath (rd w r1)) path); auto.
    pose proof (fades_retired a r1 true w) as F.
    apply IH; auto.
    + now rewrite (fd_nodes _ _ F).
    + now rewrite (fd_delegate _ _ F).
    + now rewrite (fd_path _ _ F).
Qed.

Lemma filter_none {A} (f : A -> bool) l :
  (forall x, In x l -> f x = false) -> filter f l = [].
Proof.
  induction l as [|a l IH]; intros H; simpl; auto.
  rewrite (H a) by now left. apply IH. intros x Hx. apply H. now right.
Qed.

Section Shown.
Variables (config : UIConfig) (p c : option Payload) (w : Layer).
Hypothesis Hinv : inv w.

Let path := prefab config.
Let id := getUuid (name w) path.
Let r0 := length (recs w).
Let n0 := length (nodes w).
Let w2 := displayed config p c w.

Lemma shows_new : In n0 (__nodes w2).
Proof.
  unfold w2. rewrite __nodes_displayed by exact Hinv.
  apply in_app_iff. right. now left.
Qed.

Lemma shows_delegate : delegate (nd w2 n0) = Some r0.
Proof. unfold w2, n0. now rewrite nd_displayed_new. Qed.

Lemma shows_path : prefabPath (rd w2 r0) = path.
Proof. unfold w2, r0. now rewrite rd_displayed_new. Qed.

Lemma shows_uuid : uuid (rd w2 r0) = id.
Proof. unfold w2, r0. now rewrite rd_displayed_new. Qed.

Lemma shows_node : node (rd w2 r0) = Some n0.
Proof. unfold w2, r0. now rewrite rd_displayed_new. Qed.

Lemma shows_valid : valid (rd w2 r0) = true.
Proof. unfold w2, r0. now rewrite rd_displayed_new. Qed.

Lemma shows_active : JsMap.get id (ui_nodes w2) = Some r0.
Proof. unfold w2. rewrite ui_nodes_displayed. apply get_set_eq. Qed.

Lemma shows_has : has path w2 = true.
Proof.
  apply has_true. exists n0, r0. split; [apply shows_new|].
  split; [apply shows_delegate|]. right. apply shows_path.
Qed.

(** The delegates shown before are shown as before. *)
Lemma shows_old m r :
  In m (__nodes w2) -> delegate (nd w2 m) = Some r -> m <> n0 ->
  In m (__nodes w) /\ delegate (nd w m) = Some r /\ rd w2 r = rd w r.
Proof.
  intros Hin Hd Hm. unfold w2 in *.
  rewrite __nodes_displayed in Hin by exact Hinv.
  apply in_app_iff in Hin. destruct Hin as [Hin|[Heq|[]]]; [|unfold n0 in Hm; congruence].
  rewrite nd_displayed_old in Hd by exact Hm.
  destruct (inv_delegate w Hinv m r Hd) as [Hr _].
  repeat split; auto.
  apply rd_displayed_old. unfold r0 in *. lia.
Qed.

(** If the layer showed nothing under the string [path], by path or by
    identifier, the only shown delegate that string can find now is the
    new one. *)
Lemma shows_only_new m r :
  has path w = false ->
  In m (__nodes w2) -> delegate (nd w2 m) = Some r ->
  uuid (rd w2 r) = path \/ prefabPath (rd w2 r) = path ->
  m = n0.
Proof.
  intros Hhas Hin Hd Hm.
  destruct (Nat.eq_dec m n0) as [|Hne]; auto. exfalso.
  destruct (shows_old m r Hin Hd Hne) as (Hin' & Hd' & Hrd).
  rewrite Hrd in Hm.
  destruct (has_false path w Hhas m r Hin' Hd') as [H1 H2].
  tauto.
Qed.

Lemma shows_get : has path w = false -> get path w2 = [n0].
Proof.
  intros Hhas. unfold get, w2. rewrite __nodes_displayed by exact Hinv.
  rewrite filter_app. simpl. fold w2. fold n0.
  rewrite shows_delegate, shows_path, String.eqb_refl.
  rewrite filter_none; auto. intros m Hin.
  destruct (delegate (nd w2 m)) as [r|] eqn:Ed; auto.
  apply String.eqb_neq. intros Hp.
  assert (Hin2 : In m (__nodes w2)).
  { unfold w2. rewrite __nodes_displayed by exact Hinv.
    apply in_app_iff. now left. }
  pose proof (shows_only_new m r Hhas Hin2 Ed (or_intror Hp)) as ->.
  apply filter_In in Hin. destruct Hin as [Hc _].
  apply (inv_children w Hinv) in Hc. unfold n0 in Hc. lia.
Qed.
End Shown.

(** C1 (as amended).  After [add] of a path the layer neither holds nor
    shows, and the completion of its load, the view is shown: [has] is
    true and [get] returns its visual.  After [remove] with
    [isDestroy = false] the record is in the cache and still in the active
    mapping, but it is no longer valid, so [has] returns false and [get]
    returns the empty sequence. *)
Theorem kept_view_is_hidden w config p c :
  reachable w ->
  JsMap.get (getUuid (name w) (prefab config)) (ui_nodes w) = None ->
  has (prefab config) w = false ->
  exists w1 w2 w3 r,
    add config p c w = Done (getUuid (name w) (prefab config)) w1
    /\ resolve (length (pending w)) None InstNode w1 = Done tt w2
    /\ has (prefab config) w2 = true
    /\ get (prefab config) w2 = [length (nodes w)]
    /\ remove (prefab config) false w2 = Done tt w3
    /\ JsMap.get (prefab config) (ui_cache w3) = Some r
    /\ JsMap.get (getUuid (name w) (prefab config)) (ui_nodes w3) = Some r
    /\ valid (rd w3 r) = false
    /\ has (prefab config) w3 = false
    /\ get (prefab config) w3 = [].
Proof.
  intros Hreach Hnew Hhas.
  pose proof (reachable_inv w Hreach) as Hw.
  set (w2 := displayed config p c w).
  set (w3 := swept (__nodes w2) (prefab config) false w2).
  exists (added config p c w), w2, w3, (length (recs w)).
  split; [now apply add_new_run|].
  split; [now apply resolve_displayed_run|].
  split; [now apply shows_has|].
  split; [now apply shows_get|].
  split; [apply remove_keep_run|].
  split.
  { unfold w3, w2. rewrite __nodes_displayed by exact Hw.
    apply ui_cache_swept_last.
    - now apply shows_delegate.
    - now apply shows_path. }
  split.
  { unfold w3. rewrite ui_nodes_swept_keep. now apply shows_active. }
  split.
  { unfold w3. apply (swept_invalidates _ _ _ _ (length (nodes w))).
    - now apply shows_new.
    - now apply shows_delegate.
    - now apply shows_path. }
  split; [|apply get_after_sweep].
  destruct (has (prefab config) w3) eqn:E; auto. exfalso.
  apply has_after_sweep in E. destruct E as (m & r & Hin & Hd & Hne & Hm).
  pose proof (shows_only_new config p c w Hw m r Hhas Hin Hd Hm) as ->.
  unfold w2 in Hd.
  rewrite (shows_delegate config p c w) in Hd. injection Hd as <-.
  apply Hne. now apply shows_path.
Qed.

Lemma kept_view_is_hidden_witness :
  reachable Dialog
  /\ JsMap.get (getUuid (name Dialog) (prefab Confirm)) (ui_nodes Dialog) = None
  /\ has (prefab Confirm) Dialog = false
  /\ exists w1 w2 w3 r,
    add Confirm None None Dialog = Done (getUuid (name Dialog) (prefab Confirm)) w1
    /\ resolve (length (pending Dialog)) None InstNode w1 = Done tt w2
    /\ has (prefab Confirm) w2 = true
    /\ get (prefab Confirm) w2 = [length (nodes Dialog)]
    /\ remove (prefab Confirm) false w2 = Done tt w3
    /\ JsMap.get (prefab Confirm) (ui_cache w3) = Some r
    /\ JsMap.get (getUuid (name Dialog) (prefab Confirm)) (ui_nodes w3) = Some r
    /\ valid (rd w3 r) = false
    /\ has (prefab Confirm) w3 = false
    /\ get (prefab Confirm) w3 = [].
Proof.
  split; [apply reach_new|]. split; [reflexivity|]. split; [reflexivity|].
  apply (kept_view_is_hidden Dialog Confirm None None (reach_new _ _));
    reflexivity.
Defined.

(** C4.  [add], completed load, [remove] with [isDestroy = false], then
    [add] again: the second [add] takes the fast path.  It requests
    nothing from the asset provider and instantiates nothing; the record
    made by the first [add], invalid after the removal, is valid again,
    and the visual made by the first load, detached by the removal, is a
    child of the layer again. *)
Theorem readd_reuses_cached_visual w config config' p c p' c' :
  reachable w ->
  prefab config' = prefab config ->
  JsMap.get (getUuid (name w) (prefab config)) (ui_nodes w) = None ->
  exists w1 w2 w3 w4 r n,
    add config p c w = Done (getUuid (name w) (prefab config)) w1
    /\ resolve (length (pending w)) None InstNode w1 = Done tt w2
    /\ node (rd w2 r) = Some n /\ delegate (nd w2 n) = Some r
    /\ remove (prefab config) false w2 = Done tt w3
    /\ valid (rd w3 r) = false /\ ~ In n (children w3)
    /\ add config' p' c' w3 = Done (getUuid (name w) (prefab config)) w4
    /\ pending w4 = pending w3
    /\ log w4 = log w3 ++ [OnAdded n]
    /\ nodes w4 = nodes w3
    /\ JsMap.get (getUuid (name w) (prefab config)) (ui_nodes w4) = Some r
    /\ node (rd w4 r) = Some n
    /\ valid (rd w4 r) = true
    /\ In n (children w4).
Proof.
  intros Hreach Hsame Hnew.
  pose proof (reachable_inv w Hreach) as Hw.
  set (id := getUuid (name w) (prefab config)) in *.
  set (r0 := length (recs w)). set (n0 := length (nodes w)).
  set (w2 := displayed config p c w).
  set (w3 := swept (__nodes w2) (prefab config) false w2).
  pose proof (fades_swept (__nodes w2) (prefab config) false w2) as F.
  fold w3 in F.
  assert (Hv3 : valid (rd w3 r0) = false).
  { unfold w3. apply (swept_invalidates _ _ _ _ n0).
    - now apply shows_new.
    - now apply shows_delegate.
    - now apply shows_path. }
  assert (Hn3 : node (rd w3 r0) = Some n0)
    by (rewrite (fd_node _ _ F); now apply shows_node).
  assert (Hd3 : delegate (nd w3 n0) = Some r0)
    by (rewrite (fd_delegate _ _ F); now apply shows_delegate).
  assert (Hu3 : uuid (rd w3 r0) = id)
    by (rewrite (fd_uuid _ _ F); now apply shows_uuid).
  assert (Hname3 : name w3 = name w)
    by (rewrite (fd_name _ _ F); apply name_displayed).
  assert (Hg3 : JsMap.get id (ui_nodes w3) = Some r0).
  { unfold w3. rewrite ui_nodes_swept_keep. now apply shows_active. }
  assert (Hlen3 : r0 < length (recs w3)).
  { apply node_in_range with (n := n0). exact Hn3. }
  exists (added config p c w), w2, w3, (attached r0 n0 (claim r0 p' c' w3)), r0, n0.
  split; [now apply add_new_run|].
  split; [now apply resolve_displayed_run|].
  split; [now apply shows_node|].
  split; [now apply shows_delegate|].
  split; [apply remove_keep_run|].
  split; [exact Hv3|].
  split.
  { unfold w3. apply (swept_detaches _ _ _ _ _ r0).
    - now apply shows_new.
    - now apply shows_delegate.
    - now apply shows_path. }
  split.
  { assert (Hg3' : JsMap.get (getUuid (name w3) (prefab config')) (ui_nodes w3)
                   = Some r0) by (now rewrite Hname3, Hsame).
    rewrite (add_reuse config' p' c' w3 r0 Hg3' Hv3).
    rewrite (load_fast_run r0 (bundle config') n0 r0).
    - now rewrite Hname3, Hsame.
    - rewrite (rd_claim_field uuid), ui_nodes_claim, Hu3 by auto. exact Hg3.
    - rewrite (rd_claim_field node) by auto. exact Hn3.
    - rewrite nd_claim. exact Hd3. }
  split; [now rewrite pending_attached|].
  split; [now rewrite log_attached|].
  split; [now rewrite nodes_attached|].
  split; [rewrite ui_nodes_attached, ui_nodes_claim; exact Hg3|].
  split; [rewrite node_attached, (rd_claim_field node) by auto; exact Hn3|].
  split; [apply valid_attached; now rewrite length_recs_claim|].
  apply children_attached_in.
Qed.

Lemma readd_reuses_cached_visual_witness :
  reachable Dialog /\ prefab Confirm = prefab Confirm
  /\ JsMap.get (getUuid (name Dialog) (prefab Confirm)) (ui_nodes Dialog) = None
  /\ exists w1 w2 w3 w4 r n,
    add Confirm None None Dialog = Done (getUuid (name Dialog) (prefab Confirm)) w1
    /\ resolve (length (pending Dialog)) None InstNode w1 = Done tt w2
    /\ node (rd w2 r) = Some n /\ delegate (nd w2 n) = Some r
    /\ remove (prefab Confirm) false w2 = Done tt w3
    /\ valid (rd w3 r) = false /\ ~ In n (children w3)
    /\ add Confirm None None w3 = Done (getUuid (name Dialog) (prefab Confirm)) w4
    /\ pending w4 = pending w3
    /\ log w4 = log w3 ++ [OnAdded n]
    /\ nodes w4 = nodes w3
    /\ JsMap.get (getUuid (name Dialog) (prefab Confirm)) (ui_nodes w4) = Some r
    /\ node (rd w4 r) = Some n
    /\ valid (rd w4 r) = true
    /\ In n (children w4).
Proof.
  split; [apply reach_new|]. split; [reflexivity|]. split; [reflexivity|].
  apply (readd_reuses_cached_visual Dialog Confirm Confirm None None None None
           (reach_new _ _) eq_refl eq_refl).
Defined.

(** ** Destructive removal *)

Lemma keeps_done {A} (P : Layer -> Prop) (m : M A) w a w' :
  keeps P m -> P w -> m w = Done a w' -> P w'.
Proof. intros H HP E. specialize (H w HP). now rewrite E in H. Qed.

Lemma inv_displayed config p c w :
  inv w -> JsMap.get (getUuid (name w) (prefab config)) (ui_nodes w) = None ->
  inv (displayed config p c w).
Proof.
  intros Hw Hnew.
  apply (keeps_done inv (resolve (length (pending w)) None InstNode)
           (added config p c w) tt _ (resolve_inv _ _ _)).
  - apply (keeps_done inv (add config p c) w _ _ (add_inv _ _ _) Hw
             (add_new_run config p c w Hnew)).
  - apply resolve_displayed_run.
Qed.

Lemma rd_evicted path r n w r' : rd (evicted path r n w) r' = rd w r'.
Proof. reflexivity. Qed.

Lemma ui_nodes_evicted path r n w :
  ui_nodes (evicted path r n w) = JsMap.delete (uuid (rd w r)) (ui_nodes w).
Proof. reflexivity. Qed.

Lemma ui_cache_evicted path r n w :
  ui_cache (evicted path r n w) = JsMap.delete path (ui_cache w).
Proof. reflexivity. Qed.

Lemma children_evicted path r n w :
  children (evicted path r n w) = remove_id n (children w).
Proof. reflexivity. Qed.

Lemma alive_evicted_other path r n w m :
  m <> n -> alive (nd (evicted path r n w) m) = alive (nd w m).
Proof.
  intros H. unfold evicted, detached, nd. simpl. rewrite nth_upd_ne; auto.
Qed.

Lemma alive_evicted path r n w :
  n < length (nodes w) -> alive (nd (evicted path r n w) n) = false.
Proof.
  intros H. unfold evicted, detached, nd. simpl. now rewrite nth_upd_eq.
Qed.

Lemma log_evicted path r n w : log (evicted path r n w) = log w ++ [OnRemove n true].
Proof. reflexivity. Qed.

(** [removeCache] on a well-formed layer returns.  Without a cache entry
    for the path nothing changes; otherwise the cached record leaves both
    mappings and its visual is detached and destroyed. *)
Lemma removeCache_outcome path w :
  inv w ->
  exists w1,
    removeCache path w = Done tt w1 /\ fades w w1 /\ inv w1
    /\ JsMap.get path (ui_cache w1) = None
    /\ (forall k v, JsMap.get k (ui_nodes w1) = Some v -> JsMap.get k (ui_nodes w) = Some v)
    /\ (forall r, valid (rd w1 r) = valid (rd w r))
    /\ (forall m, (forall r, JsMap.get path (ui_cache w) = Some r ->
                             node (rd w r) <> Some m) ->
                  alive (nd w1 m) = alive (nd w m)
                  /\ (In m (children w) -> In m (children w1)))
    /\ (forall r, JsMap.get path (ui_cache w) = Some r ->
          exists n, node (rd w r) = Some n
            /\ JsMap.get (uuid (rd w r)) (ui_nodes w1) = None
            /\ alive (nd w1 n) = false
            /\ ~ In n (children w1)
            /\ In (OnRemove n true) (log w1)).
Proof.
  intros Hw.
  destruct (JsMap.get path (ui_cache w)) as [r|] eqn:Eg.
  - destruct (inv_cache w Hw _ _ Eg) as (Hr & Hp & Hn).
    destruct (node (rd w r)) as [n|] eqn:En; [|congruence].
    pose proof (inv_node_delegate w r n Hw En) as Hd.
    pose proof (inv_node_lt w r n Hw En) as Hlt.
    pose proof (removeCache_run path w r n r Eg En Hd) as Hrun.
    pose proof (keeps_done inv _ w _ _ (removeCache_inv path) Hw Hrun) as Hinv1.
    exists (evicted path r n w).
    split; [exact Hrun|]. split; [apply fades_evicted|]. split; [exact Hinv1|].
    split.
    { rewrite ui_cache_evicted. apply get_delete_eq. apply (inv_cache_keys w Hw). }
    split.
    { intros k v. rewrite ui_nodes_evicted. apply get_delete_some.
      apply (inv_active_keys w Hw). }
    split; [intros r'; now rewrite rd_evicted|].
    split.
    { intros m Hm. assert (m <> n) by (intros ->; now apply (Hm r)).
      split; [now apply alive_evicted_other|].
      intros Hin. rewrite children_evicted. apply In_remove_id. auto. }
    intros r' [= <-]. exists n. split; [exact En|].
    split.
    { rewrite ui_nodes_evicted. apply get_delete_eq. apply (inv_active_keys w Hw). }
    split; [now apply alive_evicted|].
    split.
    { rewrite children_evicted, In_remove_id. tauto. }
    rewrite log_evicted. apply in_app_iff. right. now left.
  - exists w.
    split; [now apply removeCache_none|]. split; [apply fades_refl|]. split; [exact Hw|].
    split; [exact Eg|]. split; [auto|]. split; [auto|].
    split; [auto|]. intros r Hr. discriminate.
Qed.

(** C9.  [remove] with [isDestroy = true] evicts the cache entry of the
    path before it looks at the children, whatever they are: the cached
    record leaves the cache and the active mapping, and its visual is
    detached from the layer and destroyed. *)
Theorem destructive_remove_evicts_cache w path r :
  reachable w ->
  JsMap.get path (ui_cache w) = Some r ->
  exists w' n,
    remove path true w = Done tt w'
    /\ node (rd w r) = Some n
    /\ JsMap.get path (ui_cache w') = None
    /\ JsMap.get (uuid (rd w r)) (ui_nodes w') = None
    /\ alive (nd w' n) = false
    /\ ~ In n (children w')
    /\ In (OnRemove n true) (log w').
Proof.
  intros Hreach Hg. pose proof (reachable_inv w Hreach) as Hw.
  destruct (removeCache_outcome path w Hw)
    as (w1 & Hrun & F1 & Hw1 & Hc1 & Ha1 & _ & _ & Hev).
  destruct (Hev r Hg) as (n & Hn & Hu & Hal & Hch & Hlog).
  set (w' := swept (__nodes w1) path true w1).
  pose proof (fades_swept (__nodes w1) path true w1) as F. fold w' in F.
  exists w', n.
  split; [now apply remove_destroy_run|].
  split; [exact Hn|].
  split; [unfold w'; now rewrite ui_cache_swept_destroy|].
  split.
  { destruct (ui_nodes_swept_shrinks (__nodes w1) path true w1
                (inv_active_keys w1 Hw1)) as [_ Hsub].
    fold w' in Hsub.
    destruct (JsMap.get (uuid (rd w r)) (ui_nodes w')) as [v|] eqn:E; auto.
    apply Hsub in E. congruence. }
  split; [now apply (fades_dead w1 w')|].
  split; [intros Hin; apply Hch; now apply (fd_children _ _ F)|].
  now apply (fd_log _ _ F).
Qed.


Lemma Dialog_cached_reachable : reachable Dialog_cached.
Proof.
  assert (H : final (remove "ui/Confirm" false
                (final (resolve 0 None InstNode (final (add Confirm None None Dialog)))))
              = Dialog_cached) by (vm_compute; reflexivity).
  rewrite <- H.
  apply reach_step with (w := final (resolve 0 None InstNode
                                       (final (add Confirm None None Dialog)))).
  - apply reach_step with (w := final (add Confirm None None Dialog)).
    + apply reach_step with (w := Dialog); [apply reach_new | apply step_add].
    + apply step_resolve.
  - apply step_remove.
Qed.

Lemma destructive_remove_evicts_cache_witness :
  reachable Dialog_cached
  /\ JsMap.get "ui/Confirm" (ui_cache Dialog_cached) = Some 0
  /\ get "ui/Confirm" Dialog_cached = []
  /\ exists w' n,
    remove "ui/Confirm" true Dialog_cached = Done tt w'
    /\ node (rd Dialog_cached 0) = Some n
    /\ JsMap.get "ui/Confirm" (ui_cache w') = None
    /\ JsMap.get (uuid (rd Dialog_cached 0)) (ui_nodes w') = None
    /\ alive (nd w' n) = false
    /\ ~ In n (children w')
    /\ In (OnRemove n true) (log w').
Proof.
  split; [exact Dialog_cached_reachable|].
  split; [reflexivity|].
  split; [reflexivity|].
  apply (destructive_remove_evicts_cache Dialog_cached "ui/Confirm" 0
           Dialog_cached_reachable).
  reflexivity.
Defined.

(** [remove] with [isDestroy = true] of a path that a shown delegate has:
    the record of that delegate leaves the active mapping, the cache has no
    entry for the path, the visual is detached and destroyed, and no shown
    delegate of the path is left. *)
Lemma destroy_shown path w n r :
  inv w -> In n (__nodes w) -> delegate (nd w n) = Some r ->
  prefabPath (rd w r) = path ->
  exists w3,
    remove path true w = Done tt w3
    /\ JsMap.get (uuid (rd w r)) (ui_nodes w3) = None
    /\ JsMap.get path (ui_cache w3) = None
    /\ alive (nd w3 n) = false
    /\ ~ In n (children w3)
    /\ get path w3 = []
    /\ (forall q, has q w3 = true ->
          exists m r', In m (__nodes w) /\ delegate (nd w m) = Some r'
                       /\ prefabPath (rd w r') <> path
                       /\ (uuid (rd w r') = q \/ prefabPath (rd w r') = q)).
Proof.
  intros Hw Hin Hd Hp.
  destruct (removeCache_outcome path w Hw)
    as (w1 & Hrun & F1 & Hw1 & Hc1 & Ha1 & Hv1 & Hkeep & Hev).
  pose proof (fades_swept (__nodes w1) path true w1) as F.
  destruct (ui_nodes_swept_shrinks (__nodes w1) path true w1
              (inv_active_keys w1 Hw1)) as [_ Hsub].
  exists (swept (__nodes w1) path true w1).
  split; [now apply remove_destroy_run|].
  assert (Hcases :
    (JsMap.get (uuid (rd w r)) (ui_nodes w1) = None
     /\ alive (nd w1 n) = false /\ ~ In n (children w1))
    \/ In n (__nodes w1)).
  { destruct (JsMap.get path (ui_cache w)) as [r'|] eqn:Eg.
    - destruct (Hev r' eq_refl) as (n' & Hn' & Hu & Hal & Hch & _).
      destruct (Nat.eq_dec n' n) as [->|Hne].
      + left. rewrite (inv_node_delegate w r' n Hw Hn') in Hd.
        injection Hd as <-. auto.
      + right. destruct (Hkeep n) as [Hal' Hch'].
        { intros r'' [= <-]. congruence. }
        apply filter_In in Hin. destruct Hin as [Hc Hs].
        apply filter_In. split; [now apply Hch'|].
        unfold shown in *. rewrite (fd_delegate _ _ F1), Hal'.
        destruct (delegate (nd w n)); auto. now rewrite Hv1.
    - right. destruct (Hkeep n) as [Hal' Hch']; [discriminate|].
      apply filter_In in Hin. destruct Hin as [Hc Hs].
      apply filter_In. split; [now apply Hch'|].
      unfold shown in *. rewrite (fd_delegate _ _ F1), Hal'.
      destruct (delegate (nd w n)); auto. now rewrite Hv1. }
  assert (Hd1 : delegate (nd w1 n) = Some r) by (now rewrite (fd_delegate _ _ F1)).
  assert (Hp1 : prefabPath (rd w1 r) = path) by (now rewrite (fd_path _ _ F1)).
  split.
  { destruct Hcases as [(Hu & _ & _) | Hin1].
    - destruct (JsMap.get _ (ui_nodes (swept _ _ _ _))) as [v|] eqn:E; auto.
      apply Hsub in E. congruence.
    - rewrite <- (fd_uuid _ _ F1).
      apply (swept_deletes _ _ _ n); auto. apply (inv_active_keys w1 Hw1). }
  split; [now rewrite ui_cache_swept_destroy|].
  split.
  { destruct Hcases as [(_ & Hal & _) | Hin1].
    - now apply (fades_dead w1).
    - apply (swept_destroys _ _ _ _ r); auto.
      now apply (delegate_in_range _ _ r). }
  split.
  { destruct Hcases as [(_ & _ & Hch) | Hin1].
    - intros H. apply Hch. now apply (fd_children _ _ F).
    - now apply (swept_detaches _ _ _ _ _ r). }
  split; [apply get_after_sweep|].
  intros q Hq. apply has_after_sweep in Hq.
  destruct Hq as (m & r' & Hm & Hdm & Hne & Hor).
  exists m, r'.
  rewrite (fd_delegate _ _ F1) in Hdm.
  rewrite (fd_path _ _ F1) in Hne.
  rewrite (fd_uuid _ _ F1), (fd_path _ _ F1) in Hor.
  split; [now apply (fades_nodes_incl _ _ _ F1)|]. auto.
Qed.

(** C5 (as amended).  [add] of a path whose identifier the active mapping
    does not hold, completed load, then [remove] with [isDestroy = true]:
    the identifier is in the active mapping no more, the cache has no
    entry for the path, the visual is detached and destroyed and [get]
    returns the empty sequence.  [has] returns false unless another shown
    view, of another path, has the string as its identifier; so it is
    false whenever it was false before the [add]. *)
Theorem destroyed_view_is_gone w config p c :
  reachable w ->
  JsMap.get (getUuid (name w) (prefab config)) (ui_nodes w) = None ->
  exists w1 w2 w3,
    add config p c w = Done (getUuid (name w) (prefab config)) w1
    /\ resolve (length (pending w)) None InstNode w1 = Done tt w2
    /\ In (length (nodes w)) (get (prefab config) w2)
    /\ remove (prefab config) true w2 = Done tt w3
    /\ JsMap.get (getUuid (name w) (prefab config)) (ui_nodes w3) = None
    /\ JsMap.get (prefab config) (ui_cache w3) = None
    /\ alive (nd w3 (length (nodes w))) = false
    /\ ~ In (length (nodes w)) (children w3)
    /\ get (prefab config) w3 = []
    /\ (has (prefab config) w3 = true ->
        exists m r, In m (__nodes w) /\ delegate (nd w m) = Some r
                    /\ uuid (rd w r) = prefab config
                    /\ prefabPath (rd w r) <> prefab config)
    /\ (has (prefab config) w = false -> has (prefab config) w3 = false).
Proof.
  intros Hreach Hnew.
  pose proof (reachable_inv w Hreach) as Hw.
  destruct (destroy_shown (prefab config) (displayed config p c w)
              (length (nodes w)) (length (recs w))
              (inv_displayed config p c w Hw Hnew)
              (shows_new config p c w Hw)
              (shows_delegate config p c w)
              (shows_path config p c w))
    as (w3 & Hrm & Hu & Hc & Hal & Hch & Hget & Hhas3).
  rewrite (shows_uuid config p c w) in Hu.
  assert (Hother : has (prefab config) w3 = true ->
            exists m r, In m (__nodes w) /\ delegate (nd w m) = Some r
                        /\ uuid (rd w r) = prefab config
                        /\ prefabPath (rd w r) <> prefab config).
  { intros E. destruct (Hhas3 _ E) as (m & r & Hin & Hd & Hne & Hm).
    destruct Hm as [Hm|Hm]; [|contradiction].
    assert (Hmn : m <> length (nodes w)).
    { intros ->. rewrite (shows_delegate config p c w) in Hd.
      injection Hd as <-. apply Hne. apply shows_path. }
    destruct (shows_old config p c w Hw m r Hin Hd Hmn) as (Hin' & Hd' & Hrd).
    rewrite Hrd in Hm, Hne. exists m, r. auto. }
  exists (added config p c w), (displayed config p c w), w3.
  split; [now apply add_new_run|].
  split; [now apply resolve_displayed_run|].
  split.
  { unfold get. apply filter_In. split; [now apply shows_new|].
    rewrite (shows_delegate config p c w), (shows_path config p c w).
    apply String.eqb_refl. }
  split; [exact Hrm|]. split; [exact Hu|]. split; [exact Hc|].
  split; [exact Hal|]. split; [exact Hch|]. split; [exact Hget|].
  split; [exact Hother|].
  intros Hhas. destruct (has (prefab config) w3) eqn:E; [exfalso|reflexivity].
  destruct (Hother eq_refl) as (m & r & Hin & Hd & Hm & _).
  destruct (has_false _ w Hhas m r Hin Hd) as [H1 _]. contradiction.
Qed.

Lemma destroyed_view_is_gone_witness :
  reachable Dialog
  /\ JsMap.get (getUuid (name Dialog) (prefab Confirm)) (ui_nodes Dialog) = None
  /\ exists w1 w2 w3,
    add Confirm None None Dialog = Done (getUuid (name Dialog) (prefab Confirm)) w1
    /\ resolve (length (pending Dialog)) None InstNode w1 = Done tt w2
    /\ In (length (nodes Dialog)) (get (prefab Confirm) w2)
    /\ remove (prefab Confirm) true w2 = Done tt w3
    /\ JsMap.get (getUuid (name Dialog) (prefab Confirm)) (ui_nodes w3) = None
    /\ JsMap.get (prefab Confirm) (ui_cache w3) = None
    /\ alive (nd w3 (length (nodes Dialog))) = false
    /\ ~ In (length (nodes Dialog)) (children w3)
    /\ get (prefab Confirm) w3 = []
    /\ (has (prefab Confirm) w3 = true ->
        exists m r, In m (__nodes Dialog) /\ delegate (nd Dialog m) = Some r
                    /\ uuid (rd Dialog r) = prefab Confirm
                    /\ prefabPath (rd Dialog r) <> prefab Confirm)
    /\ (has (prefab Confirm) Dialog = false -> has (prefab Confirm) w3 = false).
Proof.
  split; [apply reach_new|]. split; [reflexivity|].
  apply (destroyed_view_is_gone Dialog Confirm None None (reach_new _ _)).
  reflexivity.
Defined.


(** C5, counterexample: the layer shows "ui/Confirm", whose identifier
    is "Dialog_ui_Confirm".  The path "Dialog_ui_Confirm" is added, loaded
    and removed with [isDestroy = true]; [has] of that path is still true,
    through the identifier of the other view. *)
Lemma destroyed_view_still_counted :
  (add Confirm None None ;; resolve 0 None InstNode ;;
   add (mkUIConfig "Dialog_ui_Confirm" None) None None ;;
   resolve 0 None InstNode ;;
   remove "Dialog_ui_Confirm" true) Dialog = Done tt Dialog_clash
  /\ has "Dialog_ui_Confirm" Dialog_clash = true
  /\ get "Dialog_ui_Confirm" Dialog_clash = []
  /\ getByUuid "Dialog_ui_Confirm" Dialog_clash = Some 0.
Proof. vm_compute. repeat split; reflexivity. Qed.

(** ** [clear] and [removeByUuid] on a record whose load is in flight *)


Lemma clear_unfold d w :
  clear d w =
  match forEach (ui_nodes w) clear_present (clear_turn d) w with
  | Done _ w1 =>
      (if d then
         cached <- gets ui_cache ;;
         forEach cached (fun k w => JsMap.has k (ui_cache w))
           (fun value prefabPath => removeCache prefabPath)
       else ret tt) (with_ui_nodes (fun _ => JsMap.empty) w1)
  | Throw e w1 => Throw e w1
  end.
Proof. reflexivity. Qed.

Lemma clear_turn_unfold d value key w :
  clear_turn d value key w =
  match removeByUuid (uuid (rd w value)) d w with
  | Done _ w' => Done tt (with_recs (upd value (set_valid false)) w')
  | Throw e w' => Throw e w'
  end.
Proof. reflexivity. Qed.

Lemma forEach_cons key value rest present body w :
  forEach ((key, value) :: rest) present body w =
  if present key w
  then match body value key w with
       | Done _ w' => forEach rest present body w'
       | Throw e w' => Throw e w'
       end
  else forEach rest present body w.
Proof. simpl. run. now destruct (present key w). Qed.

Lemma forEach_clear_throws snapshot d u r entries :
  NoDup (JsMap.keys snapshot) ->
  (forall e, In e entries -> In e snapshot) ->
  In (u, r) entries ->
  forall w, inv w -> within snapshot w ->
    JsMap.get u (ui_nodes w) = Some r -> node (rd w r) = None ->
    exists w', forEach entries clear_present (clear_turn d) w = Throw TypeError w'.
Proof.
  intros Hnd. induction entries as [|[key value] rest IH];
    intros Hincl Hin w Hw Hsub Hg Hn; [destruct Hin|].
  rewrite forEach_cons. unfold clear_present at 1.
  assert (Hrest : forall e, In e rest -> In e snapshot)
    by (intros e He; apply Hincl; now right).
  destruct (JsMap.has key (ui_nodes w)) eqn:Elive.
  - apply has_get in Elive. destruct Elive as [v Hv].
    pose proof (Hsub _ _ Hv) as Hs.
    rewrite (in_get _ _ _ Hnd (Hincl _ (or_introl eq_refl))) in Hs.
    injection Hs as <-.
    destruct (inv_active w Hw _ _ Hv) as [Hr Hu].
    pose proof (clear_turn_inv snapshot d key value Hnd
                  (Hincl _ (or_introl eq_refl)) w) as Hturn.
    change (u0 <- gets (fun w0 => uuid (rd w0 value));;
            removeByUuid u0 d;; assign value (set_valid false))
      with (clear_turn d value key) in Hturn.
    rewrite clear_turn_unfold, Hu in *.
    destruct (node (rd w value)) as [n|] eqn:En.
    + rewrite (removeByUuid_run key d w value n value Hv En
                 (inv_node_delegate w value n Hw En)) in *.
      destruct Hturn as [Hw1 Hsub1].
      { split; [split; assumption|]. apply has_get. eauto. }
      assert (Hne : (u, r) <> (key, value)) by (intros [= -> ->]; congruence).
      destruct Hin as [Heq|Hin]; [congruence|].
      apply IH; auto.
      * simpl. rewrite ui_nodes_detached.
        destruct d; auto. simpl. rewrite Hu.
        rewrite get_delete_ne; auto. intros <-. congruence.
      * rewrite (rd_with_recs_upd_field node) by auto.
        rewrite rd_detached. now destruct d.
    + rewrite (removeByUuid_throw key d w value Hv En). eauto.
  - destruct Hin as [[= -> ->]|Hin].
    + unfold JsMap.has in Elive. rewrite Hg in Elive. discriminate.
    + now apply IH.
Qed.

(** C10.  For a record of the active mapping whose load has not delivered
    its visual, [removeByUuid] on its identifier, and [clear], with either
    flag, end in the [TypeError] of dereferencing the absent visual. *)
Theorem clearing_pending_record_throws w u r d :
  reachable w ->
  JsMap.get u (ui_nodes w) = Some r -> node (rd w r) = None ->
  (exists w', removeByUuid u d w = Throw TypeError w')
  /\ (exists w', clear d w = Throw TypeError w').
Proof.
  intros Hreach Hg Hn. pose proof (reachable_inv w Hreach) as Hw. split.
  - rewrite (removeByUuid_throw u d w r Hg Hn). eauto.
  - rewrite clear_unfold.
    destruct (forEach_clear_throws (ui_nodes w) d u r (ui_nodes w)
                (inv_active_keys w Hw) (fun e H => H) (get_in _ _ _ Hg)
                w Hw (fun k v H => H) Hg Hn) as [w' ->].
    eauto.
Qed.


Lemma Dialog_loading_reachable : reachable Dialog_loading.
Proof.
  assert (H : final (add Confirm None None Dialog) = Dialog_loading)
    by (vm_compute; reflexivity).
  rewrite <- H. apply reach_step with (w := Dialog); [apply reach_new | apply step_add].
Qed.

Lemma clearing_pending_record_throws_witness :
  reachable Dialog_loading
  /\ JsMap.get "Dialog_ui_Confirm" (ui_nodes Dialog_loading) = Some 0
  /\ node (rd Dialog_loading 0) = None
  /\ (exists w', removeByUuid "Dialog_ui_Confirm" true Dialog_loading
                 = Throw TypeError w')
  /\ (exists w', clear true Dialog_loading = Throw TypeError w').
Proof.
  split; [exact Dialog_loading_reachable|].
  split; [reflexivity|]. split; [reflexivity|].
  apply (clearing_pending_record_throws Dialog_loading "Dialog_ui_Confirm" 0 true
           Dialog_loading_reachable); reflexivity.
Defined.


(** ** The two mappings *)

Lemma filter_nil_none {A} (f : A -> bool) l :
  filter f l = [] -> forall x, In x l -> f x = false.
Proof.
  induction l as [|a l IH]; simpl; intros H x Hx; [destruct Hx|].
  destruct (f a) eqn:E; [discriminate|].
  destruct Hx as [<-|Hx]; auto.
Qed.

Lemma filter_last {A} (f : A -> bool) l l' c :
  filter f l = l' ++ [c] ->
  exists l1 l2, l = l1 ++ c :: l2 /\ f c = true /\ forall x, In x l2 -> f x = false.
Proof.
  revert l'. induction l as [|a l IH]; intros l' H; simpl in H.
  - destruct l'; discriminate.
  - destruct (f a) eqn:E.
    + destruct l' as [|a' l'']; simpl in H.
      * injection H as -> Hnil. exists [], l. repeat split; auto.
        now apply filter_nil_none.
      * injection H as -> Hrest. destruct (IH _ Hrest) as (l1 & l2 & -> & Hc & Hl2).
        exists (a' :: l1), l2. auto.
    + destruct (IH _ H) as (l1 & l2 & -> & Hc & Hl2).
      exists (a :: l1), l2. auto.
Qed.

Lemma swept_skip l path d w :
  (forall c r, In c l -> delegate (nd w c) = Some r ->
               String.eqb (prefabPath (rd w r)) path = false) ->
  swept l path d w = w.
Proof.
  induction l as [|a rest IH]; intros H; simpl; auto.
  destruct (delegate (nd w a)) as [r|] eqn:Ed.
  - rewrite (H a r) by (auto; now left). apply IH.
    intros c r' Hc. apply H. now right.
  - apply IH. intros c r' Hc. apply H. now right.
Qed.

(** [remove] with [isDestroy = false] leaves in the cache, under the path,
    the record of the last delegate it found. *)
Lemma keep_caches_last path w l c r :
  get path w = l ++ [c] -> delegate (nd w c) = Some r ->
  JsMap.get path (ui_cache (swept (__nodes w) path false w)) = Some r.
Proof.
  intros Hget Hd. unfold get in Hget.
  destruct (filter_last _ _ _ _ Hget) as (l1 & l2 & Hsplit & Hc & Hl2).
  rewrite Hd in Hc. apply String.eqb_eq in Hc.
  rewrite Hsplit.
  change (l1 ++ c :: l2) with (l1 ++ [c] ++ l2). rewrite app_assoc, swept_app.
  pose proof (fades_swept (l1 ++ [c]) path false w) as F.
  rewrite swept_skip.
  - now apply ui_cache_swept_last.
  - intros m r' Hm Hdm.
    rewrite (fd_delegate _ _ F) in Hdm. rewrite (fd_path _ _ F).
    specialize (Hl2 m Hm). now rewrite Hdm in Hl2.
Qed.

(** C2 (as amended).  In every reachable state a record of the active
    mapping is stored under its own identifier, and a record of the cache
    mapping under its own path and with its visual; but a record can be
    in both at once: [remove] with [isDestroy = false] leaves the active
    mapping as it is and enters, under the path, the record of the last
    view of that path it detached. *)
Theorem active_and_cache_may_overlap w :
  reachable w ->
  (forall k r, JsMap.get k (ui_nodes w) = Some r -> uuid (rd w r) = k)
  /\ (forall p r, JsMap.get p (ui_cache w) = Some r ->
        prefabPath (rd w r) = p /\ node (rd w r) <> None)
  /\ (forall path, exists w',
        remove path false w = Done tt w'
        /\ ui_nodes w' = ui_nodes w
        /\ (forall l c r, get path w = l ++ [c] -> delegate (nd w c) = Some r ->
              JsMap.get path (ui_cache w') = Some r)).
Proof.
  intros Hreach. pose proof (reachable_inv w Hreach) as Hw.
  split; [intros k r Hg; now apply (inv_active w Hw)|].
  split; [intros p r Hg; now apply (inv_cache w Hw)|].
  intros path. exists (swept (__nodes w) path false w).
  split; [apply remove_keep_run|].
  split; [apply ui_nodes_swept_keep|].
  intros l c r. apply keep_caches_last.
Qed.


Lemma Dialog_shown_reachable : reachable Dialog_shown.
Proof.
  assert (H : final (resolve 0 None InstNode (final (add Confirm None None Dialog)))
              = Dialog_shown) by (vm_compute; reflexivity).
  rewrite <- H.
  apply reach_step with (w := final (add Confirm None None Dialog)).
  - apply reach_step with (w := Dialog); [apply reach_new | apply step_add].
  - apply step_resolve.
Qed.

Lemma active_and_cache_may_overlap_witness :
  reachable Dialog_shown
  /\ exists w',
       remove "ui/Confirm" false Dialog_shown = Done tt w'
       /\ ui_nodes w' = ui_nodes Dialog_shown
       /\ (forall l c r, get "ui/Confirm" Dialog_shown = l ++ [c] ->
             delegate (nd Dialog_shown c) = Some r ->
             JsMap.get "ui/Confirm" (ui_cache w') = Some r).
Proof.
  split; [exact Dialog_shown_reachable|].
  exact (proj2 (proj2 (active_and_cache_may_overlap Dialog_shown
                         Dialog_shown_reachable)) "ui/Confirm").
Defined.

(** C2, counterexample: after [add], the completion of the load and
    [remove] with [isDestroy = false], the one record of the layer is in
    the active mapping and in the cache mapping. *)
Lemma record_in_both_mappings :
  reachable Dialog_cached /\ in_active 0 Dialog_cached /\ in_cache 0 Dialog_cached.
Proof.
  split; [exact Dialog_cached_reachable|]. split.
  - exists "Dialog_ui_Confirm". reflexivity.
  - exists "ui/Confirm". reflexivity.
Qed.

(** C1, counterexample: in the scenario of the specification, [has]
    returns false after the non-destructive [remove]. *)
Lemma kept_view_not_counted :
  (add Confirm None None ;; resolve 0 None InstNode ;; remove "ui/Confirm" false) Dialog
  = Done tt Dialog_cached
  /\ has "ui/Confirm" Dialog_cached = false
  /\ has "Dialog_ui_Confirm" Dialog_cached = false
  /\ get "ui/Confirm" Dialog_cached = [].
Proof. vm_compute. repeat split; reflexivity. Qed.

(** ** A load that completes after its record was removed *)


(** C6, the code at the failing input.  A view is shown and kept in the
    cache, the layer is cleared without destroying, the path is added
    again and, while that load is in flight, removed with
    [isDestroy = true]: the eviction of the old cache entry deletes the
    new record from the active mapping.  When the load then completes,
    the callback does not look for the record: the new visual is attached
    and shown, and no mapping knows it. *)
Theorem late_load_is_attached :
  (add Confirm None None ;; resolve 0 None InstNode ;;
   remove "ui/Confirm" false ;; clear false ;;
   add Confirm None None ;; remove "ui/Confirm" true) Dialog
  = Done tt Dialog_dropped
  /\ pending Dialog_dropped = [mkRequest 1 "resources" "ui/Confirm"]
  /\ ui_nodes Dialog_dropped = [] /\ ui_cache Dialog_dropped = []
  /\ exists w',
       resolve 0 None InstNode Dialog_dropped = Done tt w'
       /\ children w' = [1]
       /\ delegate (nd w' 1) = Some 1
       /\ valid (rd w' 1) = true
       /\ get "ui/Confirm" w' = [1]
       /\ ui_nodes w' = [] /\ ui_cache w' = [].
Proof.
  split; [vm_compute; reflexivity|].
  split; [reflexivity|]. split; [reflexivity|]. split; [reflexivity|].
  eexists. split; [vm_compute; reflexivity|].
  repeat split; reflexivity.
Qed.

Lemma Dialog_dropped_reachable : reachable Dialog_dropped.
Proof.
  assert (H : final (remove "ui/Confirm" true
                (final (add Confirm None None
                   (final (clear false Dialog_cached))))) = Dialog_dropped)
    by (vm_compute; reflexivity).
  rewrite <- H.
  apply reach_step with (w := final (add Confirm None None
                                       (final (clear false Dialog_cached)))).
  - apply reach_step with (w := final (clear false Dialog_cached)).
    + apply reach_step with (w := Dialog_cached);
        [exact Dialog_cached_reachable | apply step_clear].
    + apply step_add.
  - apply step_remove.
Qed.

(** * Further properties of the layer *)

(** ** Loads in flight *)

(** X1.  In every reachable state a record has at most one load in
    flight, and while its load is in flight the record is valid, has no
    visual, and no delegate is bound to it. *)
Theorem loads_in_flight w :
  reachable w ->
  NoDup (map req_viewParams (pending w))
  /\ forall rq, In rq (pending w) ->
       node (rd w (req_viewParams rq)) = None
       /\ valid (rd w (req_viewParams rq)) = true
       /\ forall n, delegate (nd w n) <> Some (req_viewParams rq).
Proof.
  intros Hreach. pose proof (reachable_inv w Hreach) as Hw.
  split; [apply (inv_pending_once w Hw)|].
  intros rq Hin. destruct (inv_pending w Hw rq Hin) as (_ & Hn & Hv).
  repeat split; auto.
  intros n Hd. destruct (inv_delegate w Hw n _ Hd) as [_ Hn']. contradiction.
Qed.

Lemma loads_in_flight_witness :
  reachable Dialog_loading
  /\ NoDup (map req_viewParams (pending Dialog_loading))
  /\ forall rq, In rq (pending Dialog_loading) ->
       node (rd Dialog_loading (req_viewParams rq)) = None
       /\ valid (rd Dialog_loading (req_viewParams rq)) = true
       /\ forall n, delegate (nd Dialog_loading n) <> Some (req_viewParams rq).
Proof.
  split; [exact Dialog_loading_reachable|].
  exact (loads_in_flight Dialog_loading Dialog_loading_reachable).
Defined.

(** X2.  A completed load attaches its visual whatever the mappings hold:
    the callback leaves [ui_nodes] and [ui_cache] as they are, makes the
    new node the last child of the layer, binds it to the record of the
    request and marks that record valid, so that [get] of the record's
    path returns the node. *)
Theorem completed_load_attaches w k rq :
  reachable w ->
  nth_error (pending w) k = Some rq ->
  exists w',
    resolve k None InstNode w = Done tt w'
    /\ ui_nodes w' = ui_nodes w
    /\ ui_cache w' = ui_cache w
    /\ pending w' = remove_nth k (pending w)
    /\ children w' = children w ++ [length (nodes w)]
    /\ node (rd w' (req_viewParams rq)) = Some (length (nodes w))
    /\ valid (rd w' (req_viewParams rq)) = true
    /\ delegate (nd w' (length (nodes w))) = Some (req_viewParams rq)
    /\ In (length (nodes w)) (get (prefabPath (rd w (req_viewParams rq))) w').
Proof.
  intros Hreach Hk. pose proof (reachable_inv w Hreach) as Hw.
  destruct (inv_pending w Hw rq (nth_error_In _ _ Hk)) as (Hr & Hn & Hv).
  set (r := req_viewParams rq) in *.
  set (n := length (nodes w)).
  set (w0 := with_pending (remove_nth k) w).
  assert (Hr0 : r < length (recs w0)) by exact Hr.
  assert (Hrd : rd (bind_visual r w0) r = set_node (Some n) (rd w r))
    by (now rewrite rd_bind_visual_eq).
  assert (Hnd : nd (bind_visual r w0) n = mkNodeObj (Some r) true)
    by (apply (nd_bind_visual_new r w0)).
  rewrite (resolve_node_run k rq w Hk). fold r w0.
  rewrite (createNode_run r n r (bind_visual r w0));
    [|now rewrite Hrd|now rewrite Hnd].
  set (w' := attached r n (bind_visual r w0)).
  assert (Hch : children w' = children w ++ [n]).
  { unfold w'. rewrite children_attached_new; [reflexivity|].
    intros Hin. apply (inv_children w Hw) in Hin. unfold n in Hin. lia. }
  assert (Hrd' : rd w' r = set_valid true (set_node (Some n) (rd w r))).
  { unfold w'. rewrite rd_attached, rd_with_recs_upd_eq, Hrd; auto.
    now rewrite length_recs_bind_visual. }
  assert (Hnd' : nd w' n = mkNodeObj (Some r) true)
    by (unfold w'; now rewrite nd_attached).
  exists w'.
  split; [reflexivity|].
  split; [unfold w'; now rewrite ui_nodes_attached|].
  split; [unfold w'; now rewrite ui_cache_attached|].
  split; [unfold w'; now rewrite pending_attached|].
  split; [exact Hch|].
  split; [now rewrite Hrd'|].
  split; [now rewrite Hrd'|].
  split; [now rewrite Hnd'|].
  unfold get. apply filter_In. split.
  - apply filter_In. split.
    + rewrite Hch. apply in_app_iff. right. now left.
    + unfold shown. rewrite Hnd'. cbn [delegate alive]. now rewrite Hrd'.
  - rewrite Hnd'. cbn [delegate]. rewrite Hrd'. simpl. apply String.eqb_refl.
Qed.

Lemma completed_load_attaches_witness :
  reachable Dialog_dropped
  /\ nth_error (pending Dialog_dropped) 0 = Some (mkRequest 1 "resources" "ui/Confirm")
  /\ ui_nodes Dialog_dropped = []
  /\ exists w',
    resolve 0 None InstNode Dialog_dropped = Done tt w'
    /\ ui_nodes w' = ui_nodes Dialog_dropped
    /\ ui_cache w' = ui_cache Dialog_dropped
    /\ pending w' = remove_nth 0 (pending Dialog_dropped)
    /\ children w' = children Dialog_dropped ++ [length (nodes Dialog_dropped)]
    /\ node (rd w' 1) = Some (length (nodes Dialog_dropped))
    /\ valid (rd w' 1) = true
    /\ delegate (nd w' (length (nodes Dialog_dropped))) = Some 1
    /\ In (length (nodes Dialog_dropped))
          (get (prefabPath (rd Dialog_dropped 1)) w').
Proof.
  split; [exact Dialog_dropped_reachable|].
  split; [reflexivity|]. split; [reflexivity|].
  exact (completed_load_attaches Dialog_dropped 0 (mkRequest 1 "resources" "ui/Confirm")
           Dialog_dropped_reachable eq_refl).
Defined.

(** ** The queries *)

Lemma find_none_iff {A} (f : A -> bool) l :
  find f l = None <-> forall x, In x l -> f x = false.
Proof.
  induction l as [|a l IH]; simpl.
  - split; [intros _ x []|auto].
  - destruct (f a) eqn:E.
    + split; [discriminate|]. intros H. rewrite (H a) in E; auto. discriminate.
    + rewrite IH. split.
      * intros H x [<-|Hx]; auto.
      * intros H x Hx. apply H. now right.
Qed.

Lemma filter_nil_iff {A} (f : A -> bool) l :
  filter f l = [] <-> forall x, In x l -> f x = false.
Proof.
  split; [apply filter_nil_none | apply filter_none].
Qed.

(** X3.  [has] answers for the two keys at once: it is true exactly when
    [getByUuid] finds a node under the string taken as identifier, or
    [get] finds one under the string taken as path. *)
Theorem has_by_identifier_or_path q w :
  has q w = true <-> (getByUuid q w <> None \/ get q w <> []).
Proof.
  unfold getByUuid, get. rewrite has_true. split.
  - intros (c & r & Hin & Hd & [Hu|Hp]).
    + left. intros Hnone. rewrite find_none_iff in Hnone.
      specialize (Hnone c Hin). rewrite Hd in Hnone.
      apply String.eqb_neq in Hnone. contradiction.
    + right. intros Hnil. rewrite filter_nil_iff in Hnil.
      specialize (Hnil c Hin). rewrite Hd in Hnil.
      apply String.eqb_neq in Hnil. contradiction.
  - intros [H|H].
    + destruct (find _ (__nodes w)) as [c|] eqn:E; [|contradiction].
      apply find_some in E. destruct E as [Hin Hm].
      destruct (delegate (nd w c)) as [r|] eqn:Ed; [|discriminate].
      apply String.eqb_eq in Hm. exists c, r. auto.
    + destruct (filter _ (__nodes w)) as [|c rest] eqn:E; [contradiction|].
      assert (Hc : In c (c :: rest)) by now left.
      rewrite <- E in Hc. apply filter_In in Hc. destruct Hc as [Hin Hm].
      destruct (delegate (nd w c)) as [r|] eqn:Ed; [|discriminate].
      apply String.eqb_eq in Hm. exists c, r. auto.
Qed.




(** X5.  Removing what the layer does not have is a no-op, not an error:
    [remove] of a path that no shown view has (for [isDestroy = true],
    that the cache does not hold either) and [removeByUuid] of an
    identifier that is not in the active mapping return and leave the
    layer as it is. *)
Theorem remove_absent_is_noop w path u d :
  get path w = [] ->
  remove path false w = Done tt w
  /\ (JsMap.get path (ui_cache w) = None -> remove path true w = Done tt w)
  /\ (JsMap.get u (ui_nodes w) = None -> removeByUuid u d w = Done tt w).
Proof.
  intros Hget.
  assert (Hskip : forall d', swept (__nodes w) path d' w = w).
  { intros d'. apply swept_skip. intros c r Hin Hd.
    unfold get in Hget. rewrite filter_nil_iff in Hget.
    specialize (Hget c Hin). now rewrite Hd in Hget. }
  split; [|split].
  - rewrite remove_keep_run. now rewrite Hskip.
  - intros Hc. rewrite (remove_destroy_run path w w (removeCache_none path w Hc)).
    now rewrite Hskip.
  - intros Hu. unfold removeByUuid. run. now rewrite Hu.
Qed.

Lemma remove_absent_is_noop_witness :
  get "ui/Other" Dialog_shown = []
  /\ remove "ui/Other" false Dialog_shown = Done tt Dialog_shown
  /\ (JsMap.get "ui/Other" (ui_cache Dialog_shown) = None ->
      remove "ui/Other" true Dialog_shown = Done tt Dialog_shown)
  /\ (JsMap.get "Dialog_ui_Other" (ui_nodes Dialog_shown) = None ->
      removeByUuid "Dialog_ui_Other" true Dialog_shown = Done tt Dialog_shown).
Proof.
  split; [reflexivity|].
  exact (remove_absent_is_noop Dialog_shown "ui/Other" "Dialog_ui_Other" true eq_refl).
Defined.

(** ** [clear] when no load is in flight *)


Lemma fades_clear_turn key value n d w :
  fades w (with_recs (upd value (set_valid false))
             (detached n d (if d then with_ui_nodes (JsMap.delete key) w else w))).
Proof.
  eapply fades_trans; [|apply fades_set_valid_false].
  eapply fades_trans; [|apply fades_detached].
  destruct d; [apply fades_with_ui_nodes | apply fades_refl].
Qed.

Lemma fades_cleared entries d w : fades w (cleared entries d w).
Proof.
  revert w. induction entries as [|[key value] rest IH]; intros w; simpl.
  - apply fades_refl.
  - destruct (node (rd w value)) as [n|]; [|apply fades_refl].
    eapply fades_trans; [apply fades_clear_turn | apply IH].
Qed.

Lemma ui_cache_cleared entries d w : ui_cache (cleared entries d w) = ui_cache w.
Proof.
  revert w. induction entries as [|[key value] rest IH]; intros w; simpl; auto.
  destruct (node (rd w value)) as [n|]; auto.
  rewrite IH. simpl. rewrite ui_cache_detached. now destruct d.
Qed.

(** Every entry of the snapshot is visited; its record is invalid and its
    visual detached afterwards. *)
Lemma cleared_retires entries d w key value n :
  (forall k v, In (k, v) entries -> node (rd w v) <> None) ->
  In (key, value) entries -> node (rd w value) = Some n ->
  valid (rd (cleared entries d w) value) = false
  /\ ~ In n (children (cleared entries d w))
  /\ (d = true -> n < length (nodes w) -> alive (nd (cleared entries d w) n) = false).
Proof.
  revert w. induction entries as [|[k0 v0] rest IH]; intros w Hall Hin Hn;
    [destruct Hin|].
  simpl. destruct (node (rd w v0)) as [n0|] eqn:En0.
  2:{ exfalso. apply (Hall k0 v0); auto. now left. }
  set (w1 := with_recs (upd v0 (set_valid false))
               (detached n0 d (if d then with_ui_nodes (JsMap.delete k0) w else w))).
  pose proof (fades_clear_turn k0 v0 n0 d w) as F1. fold w1 in F1.
  pose proof (fades_cleared rest d w1) as F.
  destruct Hin as [[= -> ->]|Hin].
  - rewrite Hn in En0. injection En0 as <-.
    split; [|split].
    + eapply fades_invalid; [exact F|].
      destruct (valid (rd w1 value)) eqn:E; auto.
      unfold w1 in E. apply valid_set_false in E. tauto.
    + intros H. apply (fd_children _ _ F) in H. unfold w1 in H. simpl in H.
      rewrite children_detached, In_remove_id in H. tauto.
    + intros -> Hlt. eapply fades_dead; [exact F|].
      unfold w1, detached, nd. simpl. now rewrite nth_upd_eq.
  - destruct (IH w1) with (1 := fun k v (H : In (k, v) rest) =>
        eq_ind_r (fun x => x <> None) (Hall k v (or_intror H)) (fd_node _ _ F1 v))
      as (H1 & H2 & H3); auto.
    + now rewrite (fd_node _ _ F1).
    + split; [exact H1|]. split; [exact H2|].
      intros Hd Hlt. apply H3; auto. now rewrite (fd_nodes _ _ F1).
Qed.

Lemma forEach_clear_run entries d w :
  NoDup (JsMap.keys entries) ->
  (forall k v, In (k, v) entries ->
     JsMap.get k (ui_nodes w) = Some v /\ uuid (rd w v) = k
     /\ exists n r, node (rd w v) = Some n /\ delegate (nd w n) = Some r) ->
  forEach entries clear_present (clear_turn d) w = Done tt (cleared entries d w).
Proof.
  revert w. induction entries as [|[key value] rest IH]; intros w Hnd Hall;
    [reflexivity|].
  inversion Hnd as [|? ? Hnk Hnd']; subst.
  destruct (Hall key value (or_introl eq_refl)) as (Hg & Hu & n & r & Hn & Hd).
  rewrite forEach_cons. unfold clear_present at 1. unfold JsMap.has. rewrite Hg.
  rewrite clear_turn_unfold, Hu.
  rewrite (removeByUuid_run key d w value n r Hg Hn Hd).
  simpl. rewrite Hn, Hu.
  pose proof (fades_clear_turn key value n d w) as F.
  apply IH; auto.
  intros k v Hin. destruct (Hall k v (or_intror Hin)) as (Hg' & Hu' & n' & r' & Hn' & Hd').
  rewrite (fd_uuid _ _ F), (fd_node _ _ F). split; [|split; [exact Hu'|]].
  - simpl. rewrite ui_nodes_detached. destruct d; auto. simpl.
    rewrite get_delete_ne; auto. intros <-. apply Hnk.
    change key with (fst (key, v)). now apply in_map.
  - exists n', r'. split; auto. now rewrite (fd_delegate _ _ F).
Qed.

(** The second loop of [clear]: every cache entry is evicted. *)
Lemma forEach_evict_run entries :
  forall w, inv w -> ui_cache w = entries -> ui_nodes w = [] ->
  exists w',
    forEach entries (fun k w => JsMap.has k (ui_cache w))
      (fun value prefabPath => removeCache prefabPath) w = Done tt w'
    /\ inv w' /\ fades w w' /\ ui_cache w' = [] /\ ui_nodes w' = [].
Proof.
  induction entries as [|[path value] rest IH]; intros w Hw Hc Hu.
  - exists w. split; [reflexivity|]. split; [exact Hw|].
    split; [apply fades_refl|]. split; assumption.
  - rewrite forEach_cons.
    assert (Hg : JsMap.get path (ui_cache w) = Some value)
      by (rewrite Hc; simpl; now rewrite String.eqb_refl).
    unfold JsMap.has. rewrite Hg.
    destruct (inv_cache w Hw _ _ Hg) as (Hr & Hp & Hn).
    destruct (node (rd w value)) as [n|] eqn:En; [|congruence].
    pose proof (inv_node_delegate w value n Hw En) as Hd.
    pose proof (removeCache_run path w value n value Hg En Hd) as Hrun.
    rewrite Hrun.
    destruct (IH (evicted path value n w)) as (w' & Hrun' & Hw' & F' & Hc' & Hu').
    + apply (keeps_done inv _ w _ _ (removeCache_inv path) Hw Hrun).
    + rewrite ui_cache_evicted, Hc. simpl. now rewrite String.eqb_refl.
    + rewrite ui_nodes_evicted, Hu. reflexivity.
    + exists w'. split; [exact Hrun'|]. split; [exact Hw'|].
      split; [eapply fades_trans; [apply fades_evicted | exact F']|].
      split; assumption.
Qed.

(** [clear] when every record of the active mapping has its visual. *)
Lemma clear_outcome w d :
  inv w ->
  (forall u r, JsMap.get u (ui_nodes w) = Some r -> node (rd w r) <> None) ->
  exists w',
    clear d w = Done tt w'
    /\ inv w' /\ fades w w'
    /\ ui_nodes w' = []
    /\ ui_cache w' = (if d then [] else ui_cache w)
    /\ forall u r n, JsMap.get u (ui_nodes w) = Some r -> node (rd w r) = Some n ->
         valid (rd w' r) = false
         /\ ~ In n (children w')
         /\ (d = true -> alive (nd w' n) = false).
Proof.
  intros Hw Hall.
  assert (Hrun : forEach (ui_nodes w) clear_present (clear_turn d) w
                 = Done tt (cleared (ui_nodes w) d w)).
  { apply forEach_clear_run; [apply (inv_active_keys w Hw)|].
    intros k v Hin.
    pose proof (in_get _ _ _ (inv_active_keys w Hw) Hin) as Hg.
    destruct (inv_active w Hw _ _ Hg) as [_ Hu].
    split; [exact Hg|]. split; [exact Hu|].
    destruct (node (rd w v)) as [n|] eqn:En; [|now specialize (Hall k v Hg)].
    exists n, v. split; auto. now apply inv_node_delegate. }
  set (w1 := cleared (ui_nodes w) d w) in *.
  pose proof (fades_cleared (ui_nodes w) d w) as F1. fold w1 in F1.
  assert (Hret : forall u r n, JsMap.get u (ui_nodes w) = Some r ->
            node (rd w r) = Some n ->
            valid (rd w1 r) = false /\ ~ In n (children w1)
            /\ (d = true -> alive (nd w1 n) = false)).
  { intros u r n Hg Hn.
    destruct (cleared_retires (ui_nodes w) d w u r n) as (H1 & H2 & H3); auto.
    - intros k v Hin. apply (Hall k).
      now apply (in_get _ _ _ (inv_active_keys w Hw)).
    - now apply get_in.
    - split; [exact H1|]. split; [exact H2|]. intros Hd. apply H3; auto.
      now apply (inv_node_lt w r n Hw). }
  set (w2 := with_ui_nodes (fun _ => JsMap.empty) w1).
  assert (F2 : fades w w2)
    by (eapply fades_trans; [exact F1 | apply fades_with_ui_nodes]).
  assert (Hw2 : inv w2).
  { apply inv_ui_nodes_clear.
    pose proof (forEach_hoare
                  (fun w0 => inv w0 /\ within (ui_nodes w) w0
                             /\ NoDup (JsMap.keys (ui_nodes w)))
                  inv (ui_nodes w) clear_present (clear_turn d)) as H.
    specialize (H (fun w0 H0 => proj1 H0)).
    assert (Hbody : forall key value, In (key, value) (ui_nodes w) ->
              hoare (fun w0 => (inv w0 /\ within (ui_nodes w) w0
                                /\ NoDup (JsMap.keys (ui_nodes w)))
                               /\ clear_present key w0 = true)
                    (clear_turn d value key)
                    (fun _ w0 => inv w0 /\ within (ui_nodes w) w0
                                 /\ NoDup (JsMap.keys (ui_nodes w)))
                    inv).
    { intros key value Hin w0 [(Hw0 & Hsub & Hnd) Hlive].
      pose proof (clear_turn_inv (ui_nodes w) d key value Hnd Hin w0
                    (conj (conj Hw0 Hsub) Hlive)) as Ht.
      change ((u <- gets (fun w => uuid (rd w value)) ;;
               removeByUuid u d ;; assign value (set_valid false)) w0)
        with (clear_turn d value key w0) in Ht.
      destruct (clear_turn d value key w0); tauto. }
    specialize (H Hbody w
                  (conj Hw (conj (fun k v Hkv => Hkv) (inv_active_keys w Hw)))).
    rewrite Hrun in H. apply H. }
  rewrite clear_unfold, Hrun. fold w1 w2.
  destruct d.
  - destruct (forEach_evict_run (ui_cache w2) w2 Hw2 eq_refl eq_refl)
      as (w3 & Hrun3 & Hw3 & F3 & Hc3 & Hu3).
    exists w3. split.
    { unfold bind, gets. exact Hrun3. }
    split; [exact Hw3|].
    split; [eapply fades_trans; [exact F2 | exact F3]|].
    split; [exact Hu3|]. split; [exact Hc3|].
    intros u r n Hg Hn. destruct (Hret u r n Hg Hn) as (H1 & H2 & H3).
    split; [eapply fades_invalid; [exact F3|]; exact H1|].
    split.
    + intros Hin. apply H2. now apply (fd_children _ _ F3).
    + intros _. eapply fades_dead; [exact F3|]. now apply H3.
  - exists w2. split; [reflexivity|]. split; [exact Hw2|]. split; [exact F2|].
    split; [reflexivity|].
    split; [unfold w2, w1; simpl; apply ui_cache_cleared|].
    intros u r n Hg Hn. destruct (Hret u r n Hg Hn) as (H1 & H2 & H3).
    split; [exact H1|]. split; [exact H2|]. intros Hd. discriminate.
Qed.

(** X6.  When every record of the active mapping has its visual, [clear]
    returns: the active mapping is empty, every record it held is invalid
    and its visual detached (destroyed as well when [isDestroy] is set);
    the cache is emptied when [isDestroy] is set and left as it is
    otherwise. *)
Theorem clear_without_loads_in_flight w d :
  reachable w ->
  (forall u r, JsMap.get u (ui_nodes w) = Some r -> node (rd w r) <> None) ->
  exists w',
    clear d w = Done tt w'
    /\ ui_nodes w' = []
    /\ ui_cache w' = (if d then [] else ui_cache w)
    /\ forall u r n, JsMap.get u (ui_nodes w) = Some r -> node (rd w r) = Some n ->
         valid (rd w' r) = false
         /\ ~ In n (children w')
         /\ (d = true -> alive (nd w' n) = false).
Proof.
  intros Hreach Hall.
  destruct (clear_outcome w d (reachable_inv w Hreach) Hall)
    as (w' & Hrun & _ & _ & Hu & Hc & Hret).
  exists w'. auto.
Qed.

Lemma clear_without_loads_in_flight_witness :
  reachable Dialog_shown
  /\ exists w',
    clear true Dialog_shown = Done tt w'
    /\ ui_nodes w' = []
    /\ ui_cache w' = []
    /\ forall u r n, JsMap.get u (ui_nodes Dialog_shown) = Some r ->
         node (rd Dialog_shown r) = Some n ->
         valid (rd w' r) = false
         /\ ~ In n (children w')
         /\ (true = true -> alive (nd w' n) = false).
Proof.
  split; [exact Dialog_shown_reachable|].
  apply (clear_without_loads_in_flight Dialog_shown true Dialog_shown_reachable).
  intros u r. unfold Dialog_shown. cbn [ui_nodes JsMap.get].
  destruct (String.eqb "Dialog_ui_Confirm" u); intros H;
    [injection H as <-; vm_compute; discriminate | discriminate H].
Defined.

(** ** [add] and the cache *)

Lemma ui_cache_added config p c w : ui_cache (added config p c w) = ui_cache w.
Proof. reflexivity. Qed.

Lemma children_added config p c w : children (added config p c w) = children w.
Proof. reflexivity. Qed.

Lemma log_added config p c w :
  log (added config p c w)
  = log w ++ [LoadRequested (bundle_or (bundle config) (defaultBundleName w))
                (prefab config)].
Proof.
  unfold added, requested. cbn [log with_log with_pending].
  rewrite rd_claimed_new. reflexivity.
Qed.

(** X7.  [add] looks for a record in the active mapping only.  After
    [clear] with [isDestroy = false] the cache still has its entries, but
    an [add] of a cached path makes a new record and requests the asset
    again; the cached record and its visual are not reused. *)
Theorem add_after_clear_loads_again w config p c r :
  reachable w ->
  (forall u r', JsMap.get u (ui_nodes w) = Some r' -> node (rd w r') <> None) ->
  JsMap.get (prefab config) (ui_cache w) = Some r ->
  exists w1 w2,
    clear false w = Done tt w1
    /\ JsMap.get (prefab config) (ui_cache w1) = Some r
    /\ add config p c w1 = Done (getUuid (name w) (prefab config)) w2
    /\ pending w2
       = pending w1 ++ [mkRequest (length (recs w))
                          (bundle_or (bundle config) (defaultBundleName w1))
                          (prefab config)]
    /\ JsMap.get (getUuid (name w) (prefab config)) (ui_nodes w2)
       = Some (length (recs w))
    /\ r < length (recs w)
    /\ node (rd w2 (length (recs w))) = None
    /\ JsMap.get (prefab config) (ui_cache w2) = Some r.
Proof.
  intros Hreach Hall Hc. pose proof (reachable_inv w Hreach) as Hw.
  destruct (clear_outcome w false Hw Hall) as (w1 & Hrun & Hw1 & F & Hu & Hc1 & _).
  assert (Hnew : JsMap.get (getUuid (name w1) (prefab config)) (ui_nodes w1) = None)
    by (now rewrite Hu).
  exists w1, (added config p c w1).
  split; [exact Hrun|].
  split; [now rewrite Hc1|].
  split; [rewrite <- (fd_name _ _ F); now apply add_new_run|].
  split; [rewrite <- (fd_recs _ _ F); apply pending_added|].
  split.
  { rewrite <- (fd_recs _ _ F), <- (fd_name _ _ F).
    unfold added. rewrite ui_nodes_requested, ui_nodes_claim. apply get_set_eq. }
  split; [now apply (inv_cache w Hw _ _ Hc)|].
  split; [rewrite <- (fd_recs _ _ F), rd_added_new; reflexivity|].
  now rewrite ui_cache_added, Hc1.
Qed.

Lemma add_after_clear_loads_again_witness :
  reachable Dialog_cached
  /\ JsMap.get (prefab Confirm) (ui_cache Dialog_cached) = Some 0
  /\ exists w1 w2,
    clear false Dialog_cached = Done tt w1
    /\ JsMap.get (prefab Confirm) (ui_cache w1) = Some 0
    /\ add Confirm None None w1 = Done (getUuid (name Dialog_cached) (prefab Confirm)) w2
    /\ pending w2
       = pending w1 ++ [mkRequest (length (recs Dialog_cached))
                          (bundle_or (bundle Confirm) (defaultBundleName w1))
                          (prefab Confirm)]
    /\ JsMap.get (getUuid (name Dialog_cached) (prefab Confirm)) (ui_nodes w2)
       = Some (length (recs Dialog_cached))
    /\ 0 < length (recs Dialog_cached)
    /\ node (rd w2 (length (recs Dialog_cached))) = None
    /\ JsMap.get (prefab Confirm) (ui_cache w2) = Some 0.
Proof.
  split; [exact Dialog_cached_reachable|]. split; [reflexivity|].
  apply (add_after_clear_loads_again Dialog_cached Confirm None None 0
           Dialog_cached_reachable); [|reflexivity].
  intros u r'. unfold Dialog_cached. cbn [ui_nodes JsMap.get].
  destruct (String.eqb "Dialog_ui_Confirm" u); intros H;
    [injection H as <-; vm_compute; discriminate | discriminate H].
Defined.

(** X8.  The load that [add] requests for a new identifier names the
    path of the configuration and the bundle of the configuration when
    one is given and not empty, the default bundle otherwise; [add]
    returns with that load in flight and the children untouched. *)
Theorem add_requests_bundle w config p c :
  JsMap.get (getUuid (name w) (prefab config)) (ui_nodes w) = None ->
  exists w' rq,
    add config p c w = Done (getUuid (name w) (prefab config)) w'
    /\ pending w' = pending w ++ [rq]
    /\ log w' = log w ++ [LoadRequested (req_bundle rq) (req_path rq)]
    /\ children w' = children w
    /\ req_viewParams rq = length (recs w)
    /\ req_path rq = prefab config
    /\ (forall b, bundle config = Some b -> b <> "" -> req_bundle rq = b)
    /\ (bundle config = None \/ bundle config = Some "" ->
        req_bundle rq = defaultBundleName w).
Proof.
  intros Hnew.
  exists (added config p c w),
         (mkRequest (length (recs w))
            (bundle_or (bundle config) (defaultBundleName w)) (prefab config)).
  split; [now apply add_new_run|].
  split; [apply pending_added|].
  split; [apply log_added|].
  split; [apply children_added|].
  split; [reflexivity|]. split; [reflexivity|].
  cbn [req_bundle]. unfold bundle_or. split.
  - intros b -> Hb. apply String.eqb_neq in Hb. now rewrite Hb.
  - intros [->| ->]; reflexivity.
Qed.

Lemma add_requests_bundle_witness :
  JsMap.get (getUuid (name Dialog) "ui/Confirm") (ui_nodes Dialog) = None
  /\ exists w' rq,
    add (mkUIConfig "ui/Confirm" (Some "")) None None Dialog
    = Done (getUuid (name Dialog) "ui/Confirm") w'
    /\ pending w' = pending Dialog ++ [rq]
    /\ log w' = log Dialog ++ [LoadRequested (req_bundle rq) (req_path rq)]
    /\ children w' = children Dialog
    /\ req_viewParams rq = length (recs Dialog)
    /\ req_path rq = "ui/Confirm"
    /\ (forall b, Some "" = Some b -> b <> "" -> req_bundle rq = b)
    /\ (Some "" = None \/ Some "" = @Some string "" ->
        req_bundle rq = defaultBundleName Dialog).
Proof.
  split; [reflexivity|].
  exact (add_requests_bundle Dialog (mkUIConfig "ui/Confirm" (Some "")) None None
           eq_refl).
Defined.

(** ** Paths with the same identifier *)

Lemma rewrite_separators_app s t :
  rewrite_separators (s ++ t)%string
  = (rewrite_separators s ++ rewrite_separators t)%string.
Proof. induction s as [|a s IH]; simpl; auto. now rewrite IH. Qed.

Lemma rewrite_separators_idem s :
  rewrite_separators (rewrite_separators s) = rewrite_separators s.
Proof.
  induction s as [|a s IH]; simpl; auto. rewrite IH.
  destruct (Ascii.eqb a "/"%char) eqn:E; [reflexivity|]. now rewrite E.
Qed.

Lemma getUuid_rewritten layerName path :
  getUuid layerName (rewrite_separators path) = getUuid layerName path.
Proof.
  unfold getUuid. rewrite !replace_slash_rewrite.
  rewrite !rewrite_separators_app. now rewrite rewrite_separators_idem.
Qed.

Lemma rewritten_differs path :
  occurs "/"%char path = true -> rewrite_separators path <> path.
Proof.
  intros H Heq. rewrite <- Heq, rewrite_separators_clean in H. discriminate.
Qed.

(** X9.  Rewriting the separators makes different paths share an
    identifier: a path with a separator and the same path with
    underscores are different paths with one identifier, and once the first
    is added, [add] of the second is rejected as a duplicate load. *)
Theorem colliding_paths_block w path b b' p c p' c' :
  reachable w ->
  occurs "/"%char path = true ->
  rewrite_separators path <> path
  /\ getUuid (name w) (rewrite_separators path) = getUuid (name w) path
  /\ exists u w1,
       add (mkUIConfig path b) p c w = Done u w1
       /\ add (mkUIConfig (rewrite_separators path) b') p' c' w1
          = Done "" (with_log (fun l => l ++ [Warn (rewrite_separators path)]) w1).
Proof.
  intros Hreach Hsep. pose proof (reachable_inv w Hreach) as Hw.
  split; [now apply rewritten_differs|].
  split; [apply getUuid_rewritten|].
  destruct (add_outcome w (mkUIConfig path b) p c Hw)
    as (u & w1 & r & Hadd & Hg & Hv & Hname & _).
  exists u, w1. split; [exact Hadd|].
  apply (add_rejected (mkUIConfig (rewrite_separators path) b') p' c' w1 r); auto.
  cbn [prefab] in *. now rewrite Hname, getUuid_rewritten.
Qed.

Lemma colliding_paths_block_witness :
  reachable Dialog /\ occurs "/"%char "ui/Confirm" = true
  /\ rewrite_separators "ui/Confirm" <> "ui/Confirm"
  /\ getUuid (name Dialog) (rewrite_separators "ui/Confirm")
     = getUuid (name Dialog) "ui/Confirm"
  /\ exists u w1,
       add (mkUIConfig "ui/Confirm" None) None None Dialog = Done u w1
       /\ add (mkUIConfig (rewrite_separators "ui/Confirm") None) None None w1
          = Done "" (with_log (fun l => l ++ [Warn (rewrite_separators "ui/Confirm")]) w1).
Proof.
  split; [apply reach_new|]. split; [reflexivity|].
  exact (colliding_paths_block Dialog "ui/Confirm" None None None None None None
           (reach_new _ _) eq_refl).
Defined.

(** ** The queries while a load is in flight *)

Lemma find_ext_in {A} (f g : A -> bool) l :
  (forall x, In x l -> f x = g x) -> find f l = find g l.
Proof.
  induction l as [|a l IH]; intros H; simpl; auto.
  rewrite (H a) by now left. destruct (g a); auto.
  apply IH. intros x Hx. apply H. now right.
Qed.

Lemma existsb_ext_in {A} (f g : A -> bool) l :
  (forall x, In x l -> f x = g x) -> existsb f l = existsb g l.
Proof.
  induction l as [|a l IH]; intros H; simpl; auto.
  rewrite (H a) by now left. f_equal.
  apply IH. intros x Hx. apply H. now right.
Qed.

Lemma find_snoc {A} (f : A -> bool) l x :
  find f l = None -> f x = true -> find f (l ++ [x]) = Some x.
Proof.
  induction l as [|a l IH]; simpl; intros Hn Hx.
  - now rewrite Hx.
  - destruct (f a); [discriminate|]. auto.
Qed.

Section Pending.
Variables (config : UIConfig) (p c : option Payload) (w : Layer).
Hypothesis Hinv : inv w.

Lemma rd_added_old r :
r <> length (recs w) -> rd (added config p c w) r = rd w r.
Proof.
intros Hr.
change (rd (added config p c w) r)
  with (rd (claim (length (recs w)) p c
              (with_ui_nodes (JsMap.set (getUuid (name w) (prefab config))
                                (length (recs w)))
                 (with_recs (fun l => l ++ [mkViewParams
                    (getUuid (name w) (prefab config)) (prefab config) None
                    EmptyObject EmptyObject true]) w))) r).
rewrite rd_claim_ne by auto.
match goal with
| |- rd (with_ui_nodes _ ?w0) r = _ => change (rd w0 r = rd w r)
end.
destruct (Nat.lt_ge_cases r (length (recs w))) as [Hlt|Hge].
- now apply rd_snoc_old.
- rewrite !rd_beyond; auto. simpl. rewrite length_app. simpl. lia.
Qed.

Lemma nd_added m : nd (added config p c w) m = nd w m.
Proof. reflexivity. Qed.

(** A delegate bound to a record the layer had reads the same after the
  [add]. *)
Lemma bound_added (g : ViewParams -> bool) m :
match delegate (nd (added config p c w) m) with
| Some r => g (rd (added config p c w) r)
| None => false
end
= match delegate (nd w m) with
  | Some r => g (rd w r)
  | None => false
  end.
Proof.
rewrite nd_added. destruct (delegate (nd w m)) as [r|] eqn:Ed; auto.
destruct (inv_delegate w Hinv m r Ed) as [Hr _].
rewrite rd_added_old by lia. reflexivity.
Qed.

Lemma shown_added m : shown (added config p c w) m = shown w m.
Proof.
unfold shown. rewrite nd_added.
destruct (delegate (nd w m)) as [r|] eqn:Ed; auto.
destruct (inv_delegate w Hinv m r Ed) as [Hr _].
rewrite rd_added_old by lia. reflexivity.
Qed.

Lemma __nodes_added : __nodes (added config p c w) = __nodes w.
Proof.
unfold __nodes. rewrite children_added.
apply filter_ext. intros m. apply shown_added.
Qed.

Lemma bound_displayed (g : ViewParams -> bool) m :
In m (__nodes w) ->
match delegate (nd (displayed config p c w) m) with
| Some r => g (rd (displayed config p c w) r)
| None => false
end
= match delegate (nd w m) with
  | Some r => g (rd w r)
  | None => false
  end.
Proof.
intros Hin. apply filter_In in Hin. destruct Hin as [Hc _].
apply (inv_children w Hinv) in Hc.
rewrite nd_displayed_old by lia.
destruct (delegate (nd w m)) as [r|] eqn:Ed; auto.
destruct (inv_delegate w Hinv m r Ed) as [Hr _].
rewrite rd_displayed_old by lia. reflexivity.
Qed.
End Pending.

(** [find] reads the delegates and the paths of their records only. *)
Lemma find_loop_ext w1 w comps :
  (forall m, In m comps ->
     delegate (nd w1 m) = delegate (nd w m)
     /\ forall r, delegate (nd w m) = Some r ->
                  prefabPath (rd w1 r) = prefabPath (rd w r)) ->
  forall re, find_loop re comps w1 = find_loop re comps w.
Proof.
  induction comps as [|a rest IH]; intros H re; simpl; auto.
  destruct (H a (or_introl eq_refl)) as [Hd Hp]. rewrite Hd.
  assert (Hrest : forall re', find_loop re' rest w1 = find_loop re' rest w)
    by (apply IH; intros m Hm; apply H; now right).
  destruct (delegate (nd w a)) as [r|]; auto.
  rewrite (Hp r eq_refl).
  destruct (RegExp_test re (prefabPath (rd w r))) as [b re'].
  now rewrite Hrest.
Qed.

(** X10.  While the load of a newly added path is in flight the queries
    answer as before the [add]: [getByUuid] (null for a fresh
    identifier), [get], [has], [find] and [size] do not see the record;
    [find], called with the pattern object in the same state, returns the
    same nodes and leaves the pattern object in the same state, whatever
    the flags of the pattern.  When the load completes, [size] grows by
    one and [getByUuid] of the identifier returns the new node, unless a
    view with that identifier was shown before. *)
Theorem queries_see_only_loaded_views w config p c q re :
  reachable w ->
  JsMap.get (getUuid (name w) (prefab config)) (ui_nodes w) = None ->
  exists w1 w2,
    add config p c w = Done (getUuid (name w) (prefab config)) w1
    /\ getByUuid q w1 = getByUuid q w
    /\ get q w1 = get q w
    /\ has q w1 = has q w
    /\ find_nodes re w1 = find_nodes re w
    /\ size w1 = size w
    /\ resolve (length (pending w)) None InstNode w1 = Done tt w2
    /\ size w2 = S (size w)
    /\ (getByUuid (getUuid (name w) (prefab config)) w = None ->
        getByUuid (getUuid (name w) (prefab config)) w2 = Some (length (nodes w))).
Proof.
  intros Hreach Hnew. pose proof (reachable_inv w Hreach) as Hw.
  exists (added config p c w), (displayed config p c w).
  split; [now apply add_new_run|].
  split.
  { unfold getByUuid. rewrite __nodes_added by exact Hw.
    apply find_ext_in. intros m _.
    apply (bound_added config p c w Hw (fun v => String.eqb (uuid v) q)). }
  split.
  { unfold get. rewrite __nodes_added by exact Hw.
    apply filter_ext. intros m.
    apply (bound_added config p c w Hw (fun v => String.eqb (prefabPath v) q)). }
  split.
  { unfold has. rewrite __nodes_added by exact Hw.
    apply existsb_ext_in. intros m _.
    apply (bound_added config p c w Hw
             (fun v => String.eqb (uuid v) q || String.eqb (prefabPath v) q)). }
  split.
  { unfold find_nodes. rewrite __nodes_added by exact Hw.
    apply find_loop_ext. intros m _. rewrite nd_added. split; [reflexivity|].
    intros r Hd. destruct (inv_delegate w Hw m r Hd) as [Hr _].
    rewrite rd_added_old by lia. reflexivity. }
  split; [reflexivity|].
  split; [now apply resolve_displayed_run|].
  split.
  { unfold size. rewrite children_displayed by exact Hw.
    rewrite length_app. simpl. lia. }
  intros Hnone. unfold getByUuid in *.
  rewrite __nodes_displayed by exact Hw.
  apply find_snoc.
  - rewrite <- Hnone. apply find_ext_in. intros m Hin.
    apply (bound_displayed config p c w Hw
             (fun v => String.eqb (uuid v) (getUuid (name w) (prefab config))) m Hin).
  - rewrite nd_displayed_new. cbn [delegate]. rewrite rd_displayed_new.
    cbn [uuid]. apply String.eqb_refl.
Qed.


Lemma queries_see_only_loaded_views_witness :
  reachable Dialog
  /\ JsMap.get (getUuid (name Dialog) (prefab Confirm)) (ui_nodes Dialog) = None
  /\ exists w1 w2,
    add Confirm None None Dialog = Done (getUuid (name Dialog) (prefab Confirm)) w1
    /\ getByUuid "Dialog_ui_Confirm" w1 = getByUuid "Dialog_ui_Confirm" Dialog
    /\ get "Dialog_ui_Confirm" w1 = get "Dialog_ui_Confirm" Dialog
    /\ has "Dialog_ui_Confirm" w1 = has "Dialog_ui_Confirm" Dialog
    /\ find_nodes re_ui_g w1 = find_nodes re_ui_g Dialog
    /\ size w1 = size Dialog
    /\ resolve (length (pending Dialog)) None InstNode w1 = Done tt w2
    /\ size w2 = S (size Dialog)
    /\ (getByUuid (getUuid (name Dialog) (prefab Confirm)) Dialog = None ->
        getByUuid (getUuid (name Dialog) (prefab Confirm)) w2
        = Some (length (nodes Dialog))).
Proof.
  split; [apply reach_new|]. split; [reflexivity|].
  exact (queries_see_only_loaded_views Dialog Confirm None None "Dialog_ui_Confirm"
           re_ui_g (reach_new _ _) eq_refl).
Defined.

(** The pattern object keeps its state between two calls of [find]: with
    one view of "ui/Confirm" shown, [find] with [/^ui\//g] returns the
    node and leaves the pattern at index 3; called again with the same
    object it returns nothing. *)
Lemma find_carries_lastIndex :
  fst (find_nodes re_ui_g Dialog_shown) = [0]
  /\ lastIndex (snd (find_nodes re_ui_g Dialog_shown)) = 3
  /\ fst (find_nodes (snd (find_nodes re_ui_g Dialog_shown)) Dialog_shown) = [].
Proof. vm_compute. repeat split; reflexivity. Qed.


(** ** [remove] and the views of other paths *)

Lemma filter_filter {A} (f g : A -> bool) l :
  filter g (filter f l) = filter (fun x => f x && g x) l.
Proof.
  induction l as [|a l IH]; simpl; auto.
  destruct (f a); simpl; [destruct (g a)|]; now rewrite IH.
Qed.

Lemma filter_remove_id (f f' : NodeId -> bool) c l :
  (forall x, x <> c -> f' x = f x) -> f c = false ->
  filter f' (remove_id c l) = filter f l.
Proof.
  intros Hother Hc. induction l as [|a l IH]; simpl; auto.
  destruct (Nat.eqb a c) eqn:E.
  - apply Nat.eqb_eq in E. subst. now rewrite Hc.
  - apply Nat.eqb_neq in E. simpl. rewrite (Hother a E), IH. reflexivity.
Qed.

(** Detaching the node [c], whose record is of another path than [q],
    and invalidating records of other paths than [q], is not seen by
    [get q]. *)
Lemma get_detach_other q c w' w :
  children w' = remove_id c (children w) ->
  (forall x, delegate (nd w' x) = delegate (nd w x)) ->
  (forall r, prefabPath (rd w' r) = prefabPath (rd w r)) ->
  (forall x, x <> c -> alive (nd w' x) = alive (nd w x)) ->
  (forall r, prefabPath (rd w r) = q -> valid (rd w' r) = valid (rd w r)) ->
  (forall r, delegate (nd w c) = Some r -> prefabPath (rd w r) <> q) ->
  get q w' = get q w.
Proof.
  intros Hch Hd Hp Ha Hv Hc. unfold get, __nodes.
  rewrite !filter_filter, Hch. apply filter_remove_id.
  - intros x Hx. unfold shown. rewrite Hd, (Ha x Hx).
    destruct (delegate (nd w x)) as [r|]; auto.
    rewrite Hp. destruct (String.eqb (prefabPath (rd w r)) q) eqn:E.
    + apply String.eqb_eq in E. now rewrite (Hv r E).
    + now rewrite !andb_false_r.
  - unfold shown. destruct (delegate (nd w c)) as [r|] eqn:E; auto.
    apply andb_false_iff. right. apply String.eqb_neq. now apply Hc.
Qed.

Lemma get_retired_other q path c r d w :
  delegate (nd w c) = Some r -> prefabPath (rd w r) = path -> q <> path ->
  get q (retired c r d w) = get q w.
Proof.
  intros Hd Hp Hq. pose proof (fades_retired c r d w) as F.
  apply (get_detach_other q c).
  - unfold retired. cbn [children with_recs]. rewrite children_detached.
    now destruct d.
  - apply (fd_delegate _ _ F).
  - apply (fd_path _ _ F).
  - intros x Hx. unfold retired, detached, nd.
    destruct d; cbn [nodes with_recs with_nodes with_children with_log
                     with_ui_nodes with_ui_cache]; auto.
    now rewrite nth_upd_ne.
  - intros r' Hr'. unfold retired.
    rewrite rd_with_recs_upd_ne by (intros <-; congruence).
    rewrite rd_detached. now destruct d.
  - intros r' Hd'. rewrite Hd in Hd'. injection Hd' as <-. congruence.
Qed.

Lemma get_swept_other q path d l w :
  q <> path -> get q (swept l path d w) = get q w.
Proof.
  intros Hq. revert w. induction l as [|a rest IH]; intros w; simpl; auto.
  destruct (delegate (nd w a)) as [r|] eqn:Ed; auto.
  destruct (String.eqb (prefabPath (rd w r)) path) eqn:E; auto.
  apply String.eqb_eq in E.
  rewrite IH. now apply (get_retired_other q path).
Qed.

Lemma get_evicted_other q path r n w :
  inv w -> JsMap.get path (ui_cache w) = Some r -> node (rd w r) = Some n ->
  q <> path -> get q (evicted path r n w) = get q w.
Proof.
  intros Hw Hg Hn Hq. pose proof (fades_evicted path r n w) as F.
  destruct (inv_cache w Hw _ _ Hg) as (_ & Hp & _).
  apply (get_detach_other q n).
  - apply children_evicted.
  - apply (fd_delegate _ _ F).
  - apply (fd_path _ _ F).
  - intros x Hx. now apply alive_evicted_other.
  - intros r' _. now rewrite rd_evicted.
  - intros r' Hd. rewrite (inv_node_delegate w r n Hw Hn) in Hd.
    injection Hd as <-. congruence.
Qed.

(** X11.  [remove] of a path takes every shown view of that path away and
    leaves the shown views of every other path as they are, in their
    order, with either flag. *)
Theorem remove_leaves_other_paths w path q d :
  reachable w -> q <> path ->
  exists w',
    remove path d w = Done tt w'
    /\ get path w' = []
    /\ get q w' = get q w.
Proof.
  intros Hreach Hq. pose proof (reachable_inv w Hreach) as Hw.
  destruct d.
  - destruct (JsMap.get path (ui_cache w)) as [r|] eqn:Eg.
    + destruct (inv_cache w Hw _ _ Eg) as (_ & _ & Hn).
      destruct (node (rd w r)) as [n|] eqn:En; [|congruence].
      pose proof (removeCache_run path w r n r Eg En
                    (inv_node_delegate w r n Hw En)) as Hrun.
      exists (swept (__nodes (evicted path r n w)) path true (evicted path r n w)).
      split; [now apply remove_destroy_run|].
      split; [apply get_after_sweep|].
      rewrite get_swept_other by exact Hq.
      now apply get_evicted_other.
    + exists (swept (__nodes w) path true w).
      split; [apply remove_destroy_run; now apply removeCache_none|].
      split; [apply get_after_sweep|].
      now apply get_swept_other.
  - exists (swept (__nodes w) path false w).
    split; [apply remove_keep_run|].
    split; [apply get_after_sweep|].
    now apply get_swept_other.
Qed.


Lemma Dialog_two_reachable : reachable Dialog_two.
Proof.
  assert (H : final (resolve 0 None InstNode
                (final (add (mkUIConfig "ui/Alert" None) None None Dialog_shown)))
              = Dialog_two) by (vm_compute; reflexivity).
  rewrite <- H.
  apply reach_step with
    (w := final (add (mkUIConfig "ui/Alert" None) None None Dialog_shown)).
  - apply reach_step with (w := Dialog_shown);
      [exact Dialog_shown_reachable | apply step_add].
  - apply step_resolve.
Qed.

Lemma remove_leaves_other_paths_witness :
  reachable Dialog_two /\ "ui/Alert" <> "ui/Confirm"
  /\ get "ui/Alert" Dialog_two = [1]
  /\ exists w',
    remove "ui/Confirm" true Dialog_two = Done tt w'
    /\ get "ui/Confirm" w' = []
    /\ get "ui/Alert" w' = get "ui/Alert" Dialog_two.
Proof.
  split; [exact Dialog_two_reachable|]. split; [discriminate|].
  split; [reflexivity|].
  apply (remove_leaves_other_paths Dialog_two "ui/Confirm" "ui/Alert" true
           Dialog_two_reachable).
  discriminate.
Defined.

(** ** Records and their visuals *)

(** X12.  In every reachable state the references between records and
    nodes agree: the visual of a record is an instantiated node whose
    delegate points back to that record, the record a delegate points to
    has a visual, and every child of the layer is an instantiated node
    with a delegate. *)
Theorem visuals_and_delegates_agree w :
  reachable w ->
  (forall r n, node (rd w r) = Some n ->
     n < length (nodes w) /\ delegate (nd w n) = Some r)
  /\ (forall n r, delegate (nd w n) = Some r ->
        r < length (recs w) /\ node (rd w r) <> None)
  /\ (forall c, In c (children w) -> c < length (nodes w)).
Proof.
  intros Hreach. pose proof (reachable_inv w Hreach) as Hw.
  split; [apply (inv_visual w Hw)|].
  split; [apply (inv_delegate w Hw) | apply (inv_children w Hw)].
Qed.

Lemma visuals_and_delegates_agree_witness :
  reachable Dialog_two
  /\ (forall r n, node (rd Dialog_two r) = Some n ->
        n < length (nodes Dialog_two) /\ delegate (nd Dialog_two n) = Some r)
  /\ (forall n r, delegate (nd Dialog_two n) = Some r ->
        r < length (recs Dialog_two) /\ node (rd Dialog_two r) <> None)
  /\ (forall c, In c (children Dialog_two) -> c < length (nodes Dialog_two)).
Proof.
  split; [exact Dialog_two_reachable|].
  exact (visuals_and_delegates_agree Dialog_two Dialog_two_reachable).
Defined.

(** ** A load that fails *)






